(** * ai-meeting-agent: the AI gateway and the analysis/Q&A controller

    A shallow embedding of [src/services/geminiService.ts], of the state and
    the handlers of [src/App.tsx], and of the record types they share,
    together with the properties the specification states about them.

    Conventions.
    - A JavaScript string is a [string] whose characters stand for UTF-16
      code units below 256; comparison is by code unit, as in JavaScript.
    - A [Record<string, string>] is a [gmap string string] holding the
      object's own properties; a [Set<string>] is a [gset string].
    - React state is one record, [State]; a handler is a function from the
      state of the render that created it to the state of the next render.
    - Built-ins whose results the code consumes ([JSON.parse],
      [JSON.stringify], [Date]) are parameters, gathered in the class
      [Platform]; what the remote model, [crypto.randomUUID],
      [window.confirm] and the clock return comes in with the event. *)

From Stdlib Require Import Floats.PrimFloat.
From Stdlib Require Import ZArith Ascii String Sorting.Sorted Sorting.Permutation.
From Stdlib Require Import Structures.OrdersEx.
From stdpp Require Import gmap strings list sorting.

Set Warnings "-register-all,-clear-no-such-hyp".
Local Open Scope string_scope.
Local Open Scope Z_scope.

(** ** JavaScript values and built-ins *)

(** The line feed and the double quote, which the template literals of the
    source contain. *)
Definition LF : string := String "010"%char EmptyString.
Definition DQUOTE : string := String "034"%char EmptyString.

(** White space and line terminators of ECMAScript among the code units
    below 256: TAB, LF, VT, FF, CR, SP and NBSP. *)
Definition is_white_space (c : ascii) : bool :=
  let n := N_of_ascii c in
  ((9 <=? n)%N && (n <=? 13)%N) || (n =? 32)%N || (n =? 160)%N.

Fixpoint trimStart (s : string) : string :=
  match s with
  | EmptyString => EmptyString
  | String c r => if is_white_space c then trimStart r else s
  end.

Fixpoint trimEnd (s : string) : string :=
  match s with
  | EmptyString => EmptyString
  | String c r =>
      match trimEnd r with
      | EmptyString => if is_white_space c then EmptyString else String c EmptyString
      | r' => String c r'
      end
  end.

(** [String.prototype.trim]. *)
Definition trim (s : string) : string := trimEnd (trimStart s).

(** Truthiness of a string: only the empty string is falsy. *)
Definition truthy_string (s : string) : bool := negb (String.eqb s "").

(** [Array.prototype.join]. *)
Fixpoint join (sep : string) (xs : list string) : string :=
  match xs with
  | [] => ""
  | [x] => x
  | x :: rest => x ++ sep ++ join sep rest
  end.

(** A value produced by [JSON.parse]. An object is the list of its own
    properties in insertion order. *)
Inductive json : Type :=
  | JNull
  | JBool (b : bool)
  | JNum (x : float)
  | JStr (s : string)
  | JArr (xs : list json)
  | JObj (props : list (string * json)).

(** [ToBoolean] on a parsed value: [null], [false], [0], [-0], [NaN] and the
    empty string are falsy; arrays and objects are truthy, also when empty. *)
Definition truthy (v : json) : bool :=
  match v with
  | JNull => false
  | JBool b => b
  | JNum x => negb (PrimFloat.eqb x 0%float || PrimFloat.is_nan x)
  | JStr s => truthy_string s
  | JArr _ | JObj _ => true
  end.

Fixpoint assoc (k : string) (props : list (string * json)) : option json :=
  match props with
  | [] => None
  | (k', v) :: rest => if String.eqb k k' then Some v else assoc k rest
  end.

(** The read [v.k] for a property name [k] that is neither an array index
    nor a member of a built-in prototype: [None] is [undefined]. The read
    throws on [null], which the caller handles before it gets here. *)
Definition get_property (v : json) (k : string) : option json :=
  match v with
  | JObj props => assoc k props
  | _ => None
  end.

(** [!v.k]: an absent property reads as [undefined], which is falsy. *)
Definition falsy_property (v : json) (k : string) : bool :=
  match get_property v k with
  | Some x => negb (truthy x)
  | None => true
  end.

(** A computation that returns or throws an [Error] with a message. *)
Inductive outcome (A : Type) : Type :=
  | Return (a : A)
  | Throw (message : string).
Arguments Return {A} a.
Arguments Throw {A} message.

(** [try { body } catch (error) { throw new Error(message) }]. *)
Definition catch_rethrow {A} (body : outcome A) (message : string) : outcome A :=
  match body with
  | Return a => Return a
  | Throw _ => Throw message
  end.

(** [SortCompare] of [Array.prototype.sort] receives the number the
    comparator returned, with [NaN] already replaced by [+0]. The sort is
    stable; for a consistent comparator the result is the stable sorted
    permutation, which the insertion sort below computes. *)
Fixpoint sort_insert {A} (cmp : A → A → Z) (x : A) (sorted : list A) : list A :=
  match sorted with
  | [] => [x]
  | y :: rest => if cmp x y <=? 0 then x :: sorted else y :: sort_insert cmp x rest
  end.

Definition Array_sort {A} (cmp : A → A → Z) (xs : list A) : list A :=
  foldr (sort_insert cmp) [] xs.

(** The comparator [sort()] uses when called without one: code-unit order
    of the strings. *)
Definition default_compare (x y : string) : Z :=
  match String_as_OT.compare x y with
  | Lt => -1
  | Eq => 0
  | Gt => 1
  end.

(** [[...new Set(xs)]]: the distinct elements in order of first occurrence. *)
Definition Set_add (seen : list string) (x : string) : list string :=
  if decide (x ∈ seen) then seen else seen ++ [x].

Definition Set_values (xs : list string) : list string :=
  fold_left Set_add xs [].

(** ** The shared types (types.ts) *)

Record SpeakerTurn : Type := mkTurn {
  speaker : string;
  text : string;
}.

Record AnalysisResult : Type := mkAnalysis {
  transcript : list SpeakerTurn;
  summary : string;
  actionItems : string;
}.

Inductive AppState : Type := INITIAL | LOADING | SUCCESS | ERROR.

Record Meeting : Type := mkMeeting {
  id : string;
  title : string;
  timestamp : string;
  analysis : AnalysisResult;
}.

#[global] Instance SpeakerTurn_eq_dec : EqDecision SpeakerTurn.
Proof. solve_decision. Defined.
#[global] Instance AnalysisResult_eq_dec : EqDecision AnalysisResult.
Proof. solve_decision. Defined.
#[global] Instance AppState_eq_dec : EqDecision AppState.
Proof. solve_decision. Defined.
#[global] Instance Meeting_eq_dec : EqDecision Meeting.
Proof. solve_decision. Defined.

(** The shape TypeScript assumes of a parsed analysis payload: a value that
    has it denotes an [AnalysisResult]. *)
Definition as_string (v : json) : option string :=
  match v with JStr s => Some s | _ => None end.

Definition as_SpeakerTurn (v : json) : option SpeakerTurn :=
  match v with
  | JObj _ =>
      s ← get_property v "speaker" ≫= as_string;
      t ← get_property v "text" ≫= as_string;
      Some (mkTurn s t)
  | _ => None
  end.

Definition as_transcript (v : json) : option (list SpeakerTurn) :=
  match v with
  | JArr xs => mapM as_SpeakerTurn xs
  | _ => None
  end.

Definition as_AnalysisResult (v : json) : option AnalysisResult :=
  t ← get_property v "transcript" ≫= as_transcript;
  s ← get_property v "summary" ≫= as_string;
  a ← get_property v "actionItems" ≫= as_string;
  Some (mkAnalysis t s a).

(** ** The platform *)

(** What the remote call [ai.models.generateContent] did: it rejected, or it
    resolved to a response whose [text] is a string or [undefined]. *)
Inductive remote_response : Type :=
  | Rejected
  | Resolved (text : option string).

Class Platform : Type := {
  (** [JSON.parse]: [None] when it throws a [SyntaxError]. *)
  JSON_parse : string → option json;
  (** [JSON.parse] at the type [Meeting[]] the application reads it at. *)
  JSON_parse_meetings : string → option (list Meeting);
  (** [JSON.stringify] of the saved meetings. *)
  JSON_stringify_meetings : list Meeting → string;
  (** [new Date(s).getTime()]: [None] is [NaN], an invalid date. *)
  Date_getTime : string → option Z;
  (** [new Date(s).toLocaleString()]. *)
  Date_toLocaleString : string → string;
}.

(** ** services/geminiService.ts *)

Section GeminiService.
Context `{Platform}.

(** The body of the [try] block of [analyzeMeetingAudio], from the
    resolution of the remote call on. *)
Definition analyze_body (response : remote_response) : outcome json :=
  match response with
  | Rejected => Throw "generateContent rejected"
  | Resolved responseText =>
      match responseText with
      | None => Throw "Received an empty response from the API."
      | Some responseText =>
          if negb (truthy_string responseText)
          then Throw "Received an empty response from the API."
          else
            match JSON_parse responseText with
            | None => Throw "SyntaxError"
            | Some JNull => Throw "TypeError"
            | Some parsedResult =>
                (* Basic validation *)
                if falsy_property parsedResult "transcript"
                   || falsy_property parsedResult "summary"
                   || falsy_property parsedResult "actionItems"
                then Throw "The API response is missing required fields."
                else Return parsedResult
            end
      end
  end.

Definition analyzeMeetingAudio (response : remote_response) : outcome json :=
  catch_rethrow (analyze_body response) "Failed to process audio with Gemini API.".

(** The comparator of [answerQuestionFromMeetings]: the difference of the
    two time values, [NaN] when a timestamp is invalid, read by the sort
    as [+0]. *)
Definition by_timestamp (a b : Meeting) : Z :=
  match Date_getTime (timestamp a), Date_getTime (timestamp b) with
  | Some ta, Some tb => ta - tb
  | _, _ => 0
  end.

Definition formatTurn (turn : SpeakerTurn) : string :=
  speaker turn ++ ": " ++ text turn.

(** One context block: the template literal mapped over the meetings. *)
Definition formatMeeting (meeting : Meeting) : string :=
  LF ++ "---" ++ LF
  ++ "START OF TRANSCRIPT FOR MEETING: " ++ DQUOTE ++ title meeting ++ DQUOTE
  ++ " (Date: " ++ Date_toLocaleString (timestamp meeting) ++ ")" ++ LF
  ++ join LF (map formatTurn (transcript (analysis meeting))) ++ LF
  ++ "END OF TRANSCRIPT FOR MEETING: " ++ DQUOTE ++ title meeting ++ DQUOTE ++ LF
  ++ "---" ++ LF ++ "    ".

Definition contextBlocks (meetings : list Meeting) : list string :=
  map formatMeeting (Array_sort by_timestamp meetings).

Definition formattedContext (meetings : list Meeting) : string :=
  join (LF ++ LF) (contextBlocks meetings).

Definition prompt (question : string) (meetings : list Meeting) : string :=
  LF ++ "    You are an AI assistant specialized in analyzing meeting transcripts." ++ LF
  ++ "    Your task is to answer the user's question based *exclusively* on the information contained within the provided meeting transcripts." ++ LF
  ++ "    Do not use any external knowledge or make assumptions beyond what is written in the text." ++ LF
  ++ "    If the answer cannot be found in the transcripts, you must state " ++ DQUOTE
  ++ "The answer to this question cannot be found in the selected meetings." ++ DQUOTE ++ LF
  ++ LF
  ++ "    IMPORTANT RULE: The meetings are provided in chronological order. If different meetings contain conflicting information or decisions, you must prioritize the information from the most recent meeting. The latest agreement is the one that is currently valid." ++ LF
  ++ LF
  ++ "    Here are the transcripts:" ++ LF
  ++ "    " ++ formattedContext meetings ++ LF
  ++ LF
  ++ "    Now, please answer the following question: " ++ DQUOTE ++ question ++ DQUOTE ++ LF
  ++ "  ".

(** [answerQuestionFromMeetings], given what the remote call does with the
    prompt. *)
Definition answerQuestionFromMeetings
    (question : string) (meetings : list Meeting)
    (remote : string → remote_response) : outcome string :=
  catch_rethrow
    match remote (prompt question meetings) with
    | Rejected => Throw "generateContent rejected"
    | Resolved None => Throw "Received an empty response from the AI."
    | Resolved (Some responseText) =>
        if negb (truthy_string responseText)
        then Throw "Received an empty response from the AI."
        else Return responseText
    end
    "Failed to get an answer from the AI.".
End GeminiService.

(** ** App.tsx: state *)

Inductive View : Type := analyze | qa.
Inductive ModelType : Type := gemini_3_flash_preview | gemini_3_pro_preview.
Inductive SectionName : Type := summarySection | actionItemsSection.

(** What the code reads of a browser [File]: its [name] and its [type]. *)
Record File : Type := mkFile {
  name : string;
  type_ : string;
}.

#[global] Instance View_eq_dec : EqDecision View.
Proof. solve_decision. Defined.
#[global] Instance ModelType_eq_dec : EqDecision ModelType.
Proof. solve_decision. Defined.
#[global] Instance SectionName_eq_dec : EqDecision SectionName.
Proof. solve_decision. Defined.
#[global] Instance File_eq_dec : EqDecision File.
Proof. solve_decision. Defined.

Record State : Type := mkState {
  view : View;
  error : option string;
  selectedModel : ModelType;
  audioFile : option File;
  appState : AppState;
  analysisResult : option AnalysisResult;
  isDragging : bool;
  speakerNameMap : gmap string string;
  uniqueSpeakers : list string;
  editingSpeaker : option string;
  tempSpeakerName : string;
  editingTranscript : option (nat * string);
  editingSection : option SectionName;
  tempSummary : string;
  tempActionItems : string;
  savedMeetings : list Meeting;
  selectedMeetingIds : gset string;
  qaQuestion : string;
  qaAnswer : option string;
  isAnswering : bool;
}.

(** The state setters of [useState]: each replaces one field. *)
Definition setView (v : View) (s : State) : State :=
  mkState v (error s) (selectedModel s) (audioFile s) (appState s)
      (analysisResult s) (isDragging s) (speakerNameMap s) (uniqueSpeakers s)
      (editingSpeaker s) (tempSpeakerName s) (editingTranscript s)
      (editingSection s) (tempSummary s) (tempActionItems s) (savedMeetings s)
      (selectedMeetingIds s) (qaQuestion s) (qaAnswer s) (isAnswering s).
Definition setError (v : option string) (s : State) : State :=
  mkState (view s) v (selectedModel s) (audioFile s) (appState s)
      (analysisResult s) (isDragging s) (speakerNameMap s) (uniqueSpeakers s)
      (editingSpeaker s) (tempSpeakerName s) (editingTranscript s)
      (editingSection s) (tempSummary s) (tempActionItems s) (savedMeetings s)
      (selectedMeetingIds s) (qaQuestion s) (qaAnswer s) (isAnswering s).
Definition setSelectedModel (v : ModelType) (s : State) : State :=
  mkState (view s) (error s) v (audioFile s) (appState s) (analysisResult s)
      (isDragging s) (speakerNameMap s) (uniqueSpeakers s) (editingSpeaker s)
      (tempSpeakerName s) (editingTranscript s) (editingSection s)
      (tempSummary s) (tempActionItems s) (savedMeetings s)
      (selectedMeetingIds s) (qaQuestion s) (qaAnswer s) (isAnswering s).
Definition setAudioFile (v : option File) (s : State) : State :=
  mkState (view s) (error s) (selectedModel s) v (appState s) (analysisResult
      s) (isDragging s) (speakerNameMap s) (uniqueSpeakers s) (editingSpeaker
      s) (tempSpeakerName s) (editingTranscript s) (editingSection s)
      (tempSummary s) (tempActionItems s) (savedMeetings s)
      (selectedMeetingIds s) (qaQuestion s) (qaAnswer s) (isAnswering s).
Definition setAppState (v : AppState) (s : State) : State :=
  mkState (view s) (error s) (selectedModel s) (audioFile s) v (analysisResult
      s) (isDragging s) (speakerNameMap s) (uniqueSpeakers s) (editingSpeaker
      s) (tempSpeakerName s) (editingTranscript s) (editingSection s)
      (tempSummary s) (tempActionItems s) (savedMeetings s)
      (selectedMeetingIds s) (qaQuestion s) (qaAnswer s) (isAnswering s).
Definition setAnalysisResult (v : option AnalysisResult) (s : State) : State :=
  mkState (view s) (error s) (selectedModel s) (audioFile s) (appState s) v
      (isDragging s) (speakerNameMap s) (uniqueSpeakers s) (editingSpeaker s)
      (tempSpeakerName s) (editingTranscript s) (editingSection s)
      (tempSummary s) (tempActionItems s) (savedMeetings s)
      (selectedMeetingIds s) (qaQuestion s) (qaAnswer s) (isAnswering s).
Definition setIsDragging (v : bool) (s : State) : State :=
  mkState (view s) (error s) (selectedModel s) (audioFile s) (appState s)
      (analysisResult s) v (speakerNameMap s) (uniqueSpeakers s)
      (editingSpeaker s) (tempSpeakerName s) (editingTranscript s)
      (editingSection s) (tempSummary s) (tempActionItems s) (savedMeetings s)
      (selectedMeetingIds s) (qaQuestion s) (qaAnswer s) (isAnswering s).
Definition setSpeakerNameMap (v : gmap string string) (s : State) : State :=
  mkState (view s) (error s) (selectedModel s) (audioFile s) (appState s)
      (analysisResult s) (isDragging s) v (uniqueSpeakers s) (editingSpeaker
      s) (tempSpeakerName s) (editingTranscript s) (editingSection s)
      (tempSummary s) (tempActionItems s) (savedMeetings s)
      (selectedMeetingIds s) (qaQuestion s) (qaAnswer s) (isAnswering s).
Definition setUniqueSpeakers (v : list string) (s : State) : State :=
  mkState (view s) (error s) (selectedModel s) (audioFile s) (appState s)
      (analysisResult s) (isDragging s) (speakerNameMap s) v (editingSpeaker
      s) (tempSpeakerName s) (editingTranscript s) (editingSection s)
      (tempSummary s) (tempActionItems s) (savedMeetings s)
      (selectedMeetingIds s) (qaQuestion s) (qaAnswer s) (isAnswering s).
Definition setEditingSpeaker (v : option string) (s : State) : State :=
  mkState (view s) (error s) (selectedModel s) (audioFile s) (appState s)
      (analysisResult s) (isDragging s) (speakerNameMap s) (uniqueSpeakers s)
      v (tempSpeakerName s) (editingTranscript s) (editingSection s)
      (tempSummary s) (tempActionItems s) (savedMeetings s)
      (selectedMeetingIds s) (qaQuestion s) (qaAnswer s) (isAnswering s).
Definition setTempSpeakerName (v : string) (s : State) : State :=
  mkState (view s) (error s) (selectedModel s) (audioFile s) (appState s)
      (analysisResult s) (isDragging s) (speakerNameMap s) (uniqueSpeakers s)
      (editingSpeaker s) v (editingTranscript s) (editingSection s)
      (tempSummary s) (tempActionItems s) (savedMeetings s)
      (selectedMeetingIds s) (qaQuestion s) (qaAnswer s) (isAnswering s).
Definition setEditingTranscript (v : option (nat * string)) (s : State) : State :=
  mkState (view s) (error s) (selectedModel s) (audioFile s) (appState s)
      (analysisResult s) (isDragging s) (speakerNameMap s) (uniqueSpeakers s)
      (editingSpeaker s) (tempSpeakerName s) v (editingSection s) (tempSummary
      s) (tempActionItems s) (savedMeetings s) (selectedMeetingIds s)
      (qaQuestion s) (qaAnswer s) (isAnswering s).
Definition setEditingSection (v : option SectionName) (s : State) : State :=
  mkState (view s) (error s) (selectedModel s) (audioFile s) (appState s)
      (analysisResult s) (isDragging s) (speakerNameMap s) (uniqueSpeakers s)
      (editingSpeaker s) (tempSpeakerName s) (editingTranscript s) v
      (tempSummary s) (tempActionItems s) (savedMeetings s)
      (selectedMeetingIds s) (qaQuestion s) (qaAnswer s) (isAnswering s).
Definition setTempSummary (v : string) (s : State) : State :=
  mkState (view s) (error s) (selectedModel s) (audioFile s) (appState s)
      (analysisResult s) (isDragging s) (speakerNameMap s) (uniqueSpeakers s)
      (editingSpeaker s) (tempSpeakerName s) (editingTranscript s)
      (editingSection s) v (tempActionItems s) (savedMeetings s)
      (selectedMeetingIds s) (qaQuestion s) (qaAnswer s) (isAnswering s).
Definition setTempActionItems (v : string) (s : State) : State :=
  mkState (view s) (error s) (selectedModel s) (audioFile s) (appState s)
      (analysisResult s) (isDragging s) (speakerNameMap s) (uniqueSpeakers s)
      (editingSpeaker s) (tempSpeakerName s) (editingTranscript s)
      (editingSection s) (tempSummary s) v (savedMeetings s)
      (selectedMeetingIds s) (qaQuestion s) (qaAnswer s) (isAnswering s).
Definition setSavedMeetings (v : list Meeting) (s : State) : State :=
  mkState (view s) (error s) (selectedModel s) (audioFile s) (appState s)
      (analysisResult s) (isDragging s) (speakerNameMap s) (uniqueSpeakers s)
      (editingSpeaker s) (tempSpeakerName s) (editingTranscript s)
      (editingSection s) (tempSummary s) (tempActionItems s) v
      (selectedMeetingIds s) (qaQuestion s) (qaAnswer s) (isAnswering s).
Definition setSelectedMeetingIds (v : gset string) (s : State) : State :=
  mkState (view s) (error s) (selectedModel s) (audioFile s) (appState s)
      (analysisResult s) (isDragging s) (speakerNameMap s) (uniqueSpeakers s)
      (editingSpeaker s) (tempSpeakerName s) (editingTranscript s)
      (editingSection s) (tempSummary s) (tempActionItems s) (savedMeetings s)
      v (qaQuestion s) (qaAnswer s) (isAnswering s).
Definition setQaQuestion (v : string) (s : State) : State :=
  mkState (view s) (error s) (selectedModel s) (audioFile s) (appState s)
      (analysisResult s) (isDragging s) (speakerNameMap s) (uniqueSpeakers s)
      (editingSpeaker s) (tempSpeakerName s) (editingTranscript s)
      (editingSection s) (tempSummary s) (tempActionItems s) (savedMeetings s)
      (selectedMeetingIds s) v (qaAnswer s) (isAnswering s).
Definition setQaAnswer (v : option string) (s : State) : State :=
  mkState (view s) (error s) (selectedModel s) (audioFile s) (appState s)
      (analysisResult s) (isDragging s) (speakerNameMap s) (uniqueSpeakers s)
      (editingSpeaker s) (tempSpeakerName s) (editingTranscript s)
      (editingSection s) (tempSummary s) (tempActionItems s) (savedMeetings s)
      (selectedMeetingIds s) (qaQuestion s) v (isAnswering s).
Definition setIsAnswering (v : bool) (s : State) : State :=
  mkState (view s) (error s) (selectedModel s) (audioFile s) (appState s)
      (analysisResult s) (isDragging s) (speakerNameMap s) (uniqueSpeakers s)
      (editingSpeaker s) (tempSpeakerName s) (editingTranscript s)
      (editingSection s) (tempSummary s) (tempActionItems s) (savedMeetings s)
      (selectedMeetingIds s) (qaQuestion s) (qaAnswer s) v.

(** The arguments of the [useState] calls. *)
Definition initialState : State :=
  mkState analyze None gemini_3_flash_preview None INITIAL None false ∅ []
    None "" None None "" "" [] ∅ "" None false.

(** [localStorage]: its items, and whether reads and writes succeed rather
    than throw (access denied, quota exceeded). *)
Record Storage : Type := mkStorage {
  items : gmap string string;
  readable : bool;
  writable : bool;
}.

Definition STORAGE_KEY : string := "savedMeetings".

Definition setItem (k v : string) (ls : Storage) : Storage :=
  mkStorage (<[k := v]> (items ls)) (readable ls) (writable ls).

(** ** App.tsx: handlers *)

Definition handleFileChange (file : option File) (s : State) : State :=
  match file with
  | Some f => setError None (setAudioFile (Some f) s)
  | None => s
  end.

(** [processAudio] up to its first [await]. *)
Definition processAudio_start (s : State) : State :=
  match audioFile s with
  | None => setError (Some "Please select an audio file first.") s
  | Some _ => setAnalysisResult None (setError None (setAppState LOADING s))
  end.

(** [speakers.reduce((acc, speaker) => ({ ...acc, [speaker]: speaker }), {})] *)
Definition initialMap (speakers : list string) : gmap string string :=
  fold_left (λ acc speaker, <[speaker := speaker]> acc) speakers ∅.

Definition discoverSpeakers (result : AnalysisResult) : list string :=
  Array_sort default_compare (Set_values (map speaker (transcript result))).

(** [processAudio] after [analyzeMeetingAudio] resolved to [result]. *)
Definition processAudio_success (result : AnalysisResult) (s : State) : State :=
  let speakers := discoverSpeakers result in
  setAppState SUCCESS
    (setAnalysisResult (Some result)
      (setSpeakerNameMap (initialMap speakers)
        (setUniqueSpeakers speakers s))).

(** The [catch] block of [processAudio]. *)
Definition processAudio_failure (errorMessage : string) (s : State) : State :=
  setAppState ERROR (setError (Some ("Failed to analyze audio. " ++ errorMessage)) s).

Definition handleResetAnalysis (s : State) : State :=
  setTempActionItems ""
    (setTempSummary ""
      (setEditingSection None
        (setEditingTranscript None
          (setTempSpeakerName ""
            (setEditingSpeaker None
              (setUniqueSpeakers []
                (setSpeakerNameMap ∅
                  (setAppState INITIAL
                    (setError None
                      (setAnalysisResult None
                        (setAudioFile None s))))))))))).

(** [speakerNameMap[raw] || raw] *)
Definition displayName (names : gmap string string) (raw : string) : string :=
  match names !! raw with
  | Some mapped => if truthy_string mapped then mapped else raw
  | None => raw
  end.

(** The tail [[^/.]+$] of the pattern: one or more characters, none of them
    a slash or a dot, up to the end of the string. *)
Fixpoint extension_tail (s : string) : bool :=
  match s with
  | EmptyString => false
  | String c r =>
      negb (Ascii.eqb c "/" || Ascii.eqb c ".")
      && match r with EmptyString => true | _ => extension_tail r end
  end.

(** [name.replace(/\.[^/.]+$/, "")]: the leftmost match is removed. *)
Fixpoint removeExtension (fileName : string) : string :=
  match fileName with
  | EmptyString => EmptyString
  | String c r =>
      if Ascii.eqb c "." && extension_tail r then EmptyString
      else String c (removeExtension r)
  end.

Definition finalTranscript (names : gmap string string) (turns : list SpeakerTurn)
    : list SpeakerTurn :=
  map (λ turn, mkTurn (displayName names (speaker turn)) (text turn)) turns.

Definition newMeeting (uuid now : string) (file : File)
    (names : gmap string string) (result : AnalysisResult) : Meeting :=
  mkMeeting uuid (removeExtension (name file)) now
    (mkAnalysis (finalTranscript names (transcript result))
       (summary result) (actionItems result)).

(** [handleSaveMeeting], given the values [crypto.randomUUID()] and
    [new Date().toISOString()] return. *)
Definition handleSaveMeeting (uuid now : string) (s : State) : State :=
  match analysisResult s, audioFile s with
  | Some result, Some file =>
      handleResetAnalysis
        (setSavedMeetings
           (savedMeetings s ++ [newMeeting uuid now file (speakerNameMap s) result]) s)
  | _, _ => s
  end.

Definition handleDragEnter (s : State) : State := setIsDragging true s.
Definition handleDragLeave (s : State) : State := setIsDragging false s.
Definition handleDragOver (s : State) : State := s.

Definition handleDrop (file : option File) (s : State) : State :=
  let s := setIsDragging false s in
  match file with
  | Some f =>
      if String.prefix "audio/" (type_ f)
      then setError None (setAudioFile (Some f) s)
      else setError (Some "Please drop a valid audio file.") s
  | None => setError (Some "Please drop a valid audio file.") s
  end.

(** [speakerNameMap[speakerId]] is a string for every speaker the view
    lists; where it is [undefined] the model holds the empty string. *)
Definition handleEditSpeaker (speakerId : string) (s : State) : State :=
  setTempSpeakerName (default "" (speakerNameMap s !! speakerId))
    (setEditingSpeaker (Some speakerId) s).

Definition handleCancelSpeakerEdit (s : State) : State :=
  setTempSpeakerName "" (setEditingSpeaker None s).

Definition handleSaveSpeakerName (s : State) : State :=
  handleCancelSpeakerEdit
    match editingSpeaker s with
    | Some speakerId =>
        if truthy_string speakerId && truthy_string (trim (tempSpeakerName s))
        then setSpeakerNameMap
               (<[speakerId := trim (tempSpeakerName s)]> (speakerNameMap s)) s
        else s
    | None => s
    end.

Definition handleEditTranscript (index : nat) (currentText : string) (s : State) : State :=
  setEditingTranscript (Some (index, currentText)) s.

Definition updatedTranscript (editing : nat * string) (turns : list SpeakerTurn)
    : list SpeakerTurn :=
  imap (λ index turn,
          if Nat.eqb index (fst editing)
          then mkTurn (speaker turn) (trim (snd editing))
          else turn) turns.

Definition handleSaveTranscript (s : State) : State :=
  match editingTranscript s, analysisResult s with
  | Some editing, Some result =>
      setEditingTranscript None
        (setAnalysisResult
           (Some (mkAnalysis (updatedTranscript editing (transcript result))
                    (summary result) (actionItems result))) s)
  | _, _ => s
  end.

Definition handleCancelTranscriptEdit (s : State) : State :=
  setEditingTranscript None s.

Definition handleEditSection (section : SectionName) (s : State) : State :=
  match analysisResult s with
  | None => s
  | Some result =>
      match section with
      | summarySection => setTempSummary (summary result) (setEditingSection (Some section) s)
      | actionItemsSection =>
          setTempActionItems (actionItems result) (setEditingSection (Some section) s)
      end
  end.

Definition handleSaveSection (s : State) : State :=
  match analysisResult s, editingSection s with
  | Some result, Some summarySection =>
      setEditingSection None
        (setAnalysisResult
           (Some (mkAnalysis (transcript result) (trim (tempSummary s)) (actionItems result))) s)
  | Some result, Some actionItemsSection =>
      setEditingSection None
        (setAnalysisResult
           (Some (mkAnalysis (transcript result) (summary result) (trim (tempActionItems s)))) s)
  | _, _ => s
  end.

Definition handleCancelSectionEdit (s : State) : State := setEditingSection None s.

Definition handleToggleMeetingSelection (meetingId : string) (s : State) : State :=
  setSelectedMeetingIds
    (if decide (meetingId ∈ selectedMeetingIds s)
     then selectedMeetingIds s ∖ {[meetingId]}
     else selectedMeetingIds s ∪ {[meetingId]}) s.

(** [handleDeleteMeeting], given the answer to [window.confirm]. *)
Definition handleDeleteMeeting (confirmed : bool) (meetingId : string) (s : State) : State :=
  if confirmed
  then setSelectedMeetingIds (selectedMeetingIds s ∖ {[meetingId]})
         (setSavedMeetings
            (filter (λ m, id m ≠ meetingId) (savedMeetings s)) s)
  else s.

Definition selectedMeetings (s : State) : list Meeting :=
  filter (λ m, id m ∈ selectedMeetingIds s) (savedMeetings s).

(** [handleAskQuestion] up to its [await]. *)
Definition handleAskQuestion_start (s : State) : State :=
  if negb (truthy_string (trim (qaQuestion s))) || bool_decide (size (selectedMeetingIds s) = 0%nat)
  then setError (Some "Please select at least one meeting and ask a question.") s
  else setQaAnswer None (setIsAnswering true (setError None s)).

(** [handleAskQuestion] once [answerQuestionFromMeetings] settled. *)
Definition handleAskQuestion_settle (answer : outcome string) (s : State) : State :=
  setIsAnswering false
    match answer with
    | Return text => setQaAnswer (Some text) s
    | Throw errorMessage => setError (Some ("Failed to get answer. " ++ errorMessage)) s
    end.

(** ** App.tsx: effects, rendering and the event loop *)

Record World : Type := mkWorld {
  ui : State;
  localStorage : Storage;
}.

(** How the awaited part of [processAudio] ends: [fileToBase64] rejects, or
    the remote call settles and [analyzeMeetingAudio] handles it. *)
Inductive analysis_settlement : Type :=
  | FileReadFailed
  | Responded (response : remote_response).

Inductive event : Type :=
  | SetView (v : View)
  | SetSelectedModel (m : ModelType)
  | FileChange (file : option File)
  | DragEnter
  | DragLeave
  | DragOver
  | Drop (file : option File)
  | ProcessAudio
  | AnalysisSettled (x : analysis_settlement)
  | ResetAnalysis
  | SaveMeeting (uuid now : string)
  | EditSpeaker (speakerId : string)
  | ChangeTempSpeakerName (value : string)
  | SaveSpeakerName
  | CancelSpeakerEdit
  | EditTranscript (index : nat)
  | ChangeEditingTranscript (value : string)
  | SaveTranscript
  | CancelTranscriptEdit
  | EditSection (section : SectionName)
  | ChangeTempSummary (value : string)
  | ChangeTempActionItems (value : string)
  | SaveSection
  | CancelSectionEdit
  | ToggleMeetingSelection (meetingId : string)
  | DeleteMeeting (confirmed : bool) (meetingId : string)
  | ChangeQaQuestion (value : string)
  | AskQuestion
  | AnswerSettled (response : remote_response).

Section App.
Context `{Platform}.

(** The load effect: runs once, after the first render. *)
Definition load_effect (ls : Storage) (s : State) : State :=
  if readable ls then
    match items ls !! STORAGE_KEY with
    | Some storedMeetings =>
        if truthy_string storedMeetings then
          match JSON_parse_meetings storedMeetings with
          | Some meetings => setSavedMeetings meetings s
          | None => setError (Some "Could not load saved meetings.") s
          end
        else s
    | None => s
    end
  else setError (Some "Could not load saved meetings.") s.

(** Whether the load effect calls [setSavedMeetings]; the array it passes
    is a new one, so the state changes and the persist effect runs again. *)
Definition load_sets_meetings (ls : Storage) : bool :=
  readable ls &&
  match items ls !! STORAGE_KEY with
  | Some storedMeetings =>
      truthy_string storedMeetings && bool_decide (is_Some (JSON_parse_meetings storedMeetings))
  | None => false
  end.

(** The persist effect, closed over the [savedMeetings] of its render. *)
Definition persist_effect (meetings : list Meeting) (w : World) : World :=
  if writable (localStorage w)
  then mkWorld (ui w)
         (setItem STORAGE_KEY (JSON_stringify_meetings meetings) (localStorage w))
  else mkWorld
         (setError (Some "Could not save meetings. Your changes might not persist.") (ui w))
         (localStorage w).

(** The first render and its effects, in the order they are declared, then
    the render the load effect causes and the persist effect of that
    render. *)
Definition mount (ls : Storage) : World :=
  let loaded := load_effect ls initialState in
  let w := persist_effect (savedMeetings initialState) (mkWorld loaded ls) in
  if load_sets_meetings ls then persist_effect (savedMeetings (ui w)) w else w.

(** The comparator of the list of saved meetings in the Q&A view: newest
    first. *)
Definition by_timestamp_desc (a b : Meeting) : Z := by_timestamp b a.

(** Rendering the Q&A view sorts the [savedMeetings] array in place; no
    state is set, so no effect follows. *)
Definition render (s : State) : State :=
  match view s with
  | qa => setSavedMeetings (Array_sort by_timestamp_desc (savedMeetings s)) s
  | analyze => s
  end.

Definition processAudio_settle (x : analysis_settlement) (s : State) : State :=
  match x with
  | FileReadFailed => processAudio_failure "An unknown error occurred." s
  | Responded response =>
      match analyzeMeetingAudio response with
      | Throw errorMessage => processAudio_failure errorMessage s
      | Return payload =>
          match as_AnalysisResult payload with
          | Some result => processAudio_success result s
          | None => s
          end
      end
  end.

Definition handler (e : event) (s : State) : State :=
  match e with
  | SetView v => setView v s
  | SetSelectedModel m => setSelectedModel m s
  | FileChange file => handleFileChange file s
  | DragEnter => handleDragEnter s
  | DragLeave => handleDragLeave s
  | DragOver => handleDragOver s
  | Drop file => handleDrop file s
  | ProcessAudio => processAudio_start s
  | AnalysisSettled x => processAudio_settle x s
  | ResetAnalysis => handleResetAnalysis s
  | SaveMeeting uuid now => handleSaveMeeting uuid now s
  | EditSpeaker speakerId => handleEditSpeaker speakerId s
  | ChangeTempSpeakerName value => setTempSpeakerName value s
  | SaveSpeakerName => handleSaveSpeakerName s
  | CancelSpeakerEdit => handleCancelSpeakerEdit s
  | EditTranscript index =>
      match analysisResult s ≫= λ result, transcript result !! index with
      | Some turn => handleEditTranscript index (text turn) s
      | None => s
      end
  | ChangeEditingTranscript value =>
      match editingTranscript s with
      | Some (index, _) => setEditingTranscript (Some (index, value)) s
      | None => s
      end
  | SaveTranscript => handleSaveTranscript s
  | CancelTranscriptEdit => handleCancelTranscriptEdit s
  | EditSection section => handleEditSection section s
  | ChangeTempSummary value => setTempSummary value s
  | ChangeTempActionItems value => setTempActionItems value s
  | SaveSection => handleSaveSection s
  | CancelSectionEdit => handleCancelSectionEdit s
  | ToggleMeetingSelection meetingId => handleToggleMeetingSelection meetingId s
  | DeleteMeeting confirmed meetingId => handleDeleteMeeting confirmed meetingId s
  | ChangeQaQuestion value => setQaQuestion value s
  | AskQuestion => handleAskQuestion_start s
  | AnswerSettled response =>
      handleAskQuestion_settle
        (answerQuestionFromMeetings (qaQuestion s) (selectedMeetings s) (λ _, response)) s
  end.

(** Whether the handler calls [setSavedMeetings]. *)
Definition sets_savedMeetings (e : event) (s : State) : bool :=
  match e with
  | SaveMeeting _ _ =>
      bool_decide (is_Some (analysisResult s)) && bool_decide (is_Some (audioFile s))
  | DeleteMeeting confirmed _ => confirmed
  | _ => false
  end.

(** One turn of the event loop: the handler, the render, and the persist
    effect when the collection was set. *)
Definition step (e : event) (w : World) : World :=
  let s := render (handler e (ui w)) in
  let w' := mkWorld s (localStorage w) in
  if sets_savedMeetings e (ui w) then persist_effect (savedMeetings s) w' else w'.

(** The result pane of the Analyze view is on screen. *)
Definition analysisShown (s : State) : Prop :=
  view s = analyze ∧ appState s = SUCCESS ∧ is_Some (analysisResult s).

(** The ids of the meetings the Q&A view lists. *)
Definition listed (meetingId : string) (s : State) : Prop :=
  view s = qa ∧ meetingId ∈ map id (savedMeetings s).

(** Which events the rendered view can deliver in state [s]: the element
    that carries the handler is rendered and not disabled, a settlement
    has its request outstanding, the remote model answers within the
    response schema, and [crypto.randomUUID] returns an unused id. *)
Definition enabled (s : State) (e : event) : Prop :=
  match e with
  | SetView _ => True
  | SetSelectedModel _ =>
      view s = qa ∨ analysisShown s
      ∨ (view s = analyze ∧ is_Some (audioFile s) ∧ appState s ≠ SUCCESS)
  | FileChange _ | DragEnter | DragLeave | DragOver | Drop _ =>
      view s = analyze ∧ appState s = INITIAL
  | ProcessAudio =>
      analysisShown s
      ∨ (view s = analyze ∧ is_Some (audioFile s)
         ∧ appState s ≠ SUCCESS ∧ appState s ≠ LOADING)
  | AnalysisSettled x =>
      appState s = LOADING ∧
      match x with
      | FileReadFailed => True
      | Responded response =>
          match analyzeMeetingAudio response with
          | Return payload => is_Some (as_AnalysisResult payload)
          | Throw _ => True
          end
      end
  | ResetAnalysis => analysisShown s
  | SaveMeeting uuid _ => analysisShown s ∧ uuid ∉ map id (savedMeetings s)
  | EditSpeaker speakerId =>
      analysisShown s ∧ speakerId ∈ uniqueSpeakers s ∧ editingSpeaker s ≠ Some speakerId
  | ChangeTempSpeakerName _ | SaveSpeakerName | CancelSpeakerEdit =>
      analysisShown s ∧
      match editingSpeaker s with
      | Some speakerId => speakerId ∈ uniqueSpeakers s
      | None => False
      end
  | EditTranscript index =>
      analysisShown s
      ∧ is_Some (analysisResult s ≫= λ result, transcript result !! index)
      ∧ fst <$> editingTranscript s ≠ Some index
  | ChangeEditingTranscript _ | SaveTranscript | CancelTranscriptEdit =>
      analysisShown s ∧
      match editingTranscript s with
      | Some (index, _) =>
          is_Some (analysisResult s ≫= λ result, transcript result !! index)
      | None => False
      end
  | EditSection section => analysisShown s ∧ editingSection s ≠ Some section
  | ChangeTempSummary _ => analysisShown s ∧ editingSection s = Some summarySection
  | ChangeTempActionItems _ => analysisShown s ∧ editingSection s = Some actionItemsSection
  | SaveSection | CancelSectionEdit => analysisShown s ∧ is_Some (editingSection s)
  | ToggleMeetingSelection meetingId | DeleteMeeting _ meetingId => listed meetingId s
  | ChangeQaQuestion _ => view s = qa
  | AskQuestion =>
      view s = qa ∧ isAnswering s = false ∧ size (selectedMeetingIds s) ≠ 0%nat
  | AnswerSettled _ => isAnswering s = true
  end.

#[global] Instance enabled_dec s e : Decision (enabled s e).
Proof. destruct e; simpl; unfold analysisShown, listed; repeat case_match; apply _. Defined.

(** The states the application can be in: after mounting on some storage,
    and after any enabled event. *)
Inductive reachable : World → Prop :=
  | reachable_mount ls : reachable (mount ls)
  | reachable_step w e :
      reachable w → enabled (ui w) e → reachable (step e w).

(** A run of events from [w], and whether each is enabled when its turn
    comes. *)
Fixpoint run (es : list event) (w : World) : World :=
  match es with
  | [] => w
  | e :: rest => run rest (step e w)
  end.

Fixpoint runnable (es : list event) (w : World) : bool :=
  match es with
  | [] => true
  | e :: rest => bool_decide (enabled (ui w) e) && runnable rest (step e w)
  end.


End App.

(** ** Notions the properties are stated with *)

Section Notions.
Context `{Platform}.

(** [a] is dated no later than [b]; both timestamps are valid dates. *)
Definition chronological (a b : Meeting) : Prop :=
  match Date_getTime (timestamp a), Date_getTime (timestamp b) with
  | Some ta, Some tb => ta ≤ tb
  | _, _ => False
  end.

(** Every timestamp is a valid date, as the ISO strings the application
    writes are. *)
Definition validTimestamps (meetings : list Meeting) : Prop :=
  ∀ m, m ∈ meetings → is_Some (Date_getTime (timestamp m)).
End Notions.

(** [a] comes strictly before [b] in code-unit order. *)
Definition lexically_before (a b : string) : Prop := String_as_OT.compare a b = Lt.

(** [a] is [b] or comes before it. *)
Definition lexically_le (a b : string) : Prop := a = b ∨ lexically_before a b.

(** No character of [s] is a slash or a dot. *)
Definition plain (s : string) : Prop :=
  ∀ c, c ∈ list_ascii_of_string s → c ≠ "/"%char ∧ c ≠ "."%char.

(** What every reachable state satisfies: an analysis that was started has
    its audio file; no speaker other than the empty identifier is mapped to
    an empty name; every selected id is the id of a saved meeting. *)
Record invariant (s : State) : Prop := mkInvariant {
  inv_audioFile : appState s ≠ INITIAL → is_Some (audioFile s);
  inv_names : ∀ k v, speakerNameMap s !! k = Some v → v = "" → k = "";
  inv_selection : ∀ i, i ∈ selectedMeetingIds s → i ∈ map id (savedMeetings s);
}.

(** ** A reference platform

    An instance of [Platform] on which the properties can be run: a reader
    and a writer for JSON texts without number literals (the records the
    application stores have none), and the time value of the timestamps
    [Date.prototype.toISOString] writes. *)

Definition is_json_space (c : ascii) : bool :=
  let n := N_of_ascii c in
  (n =? 32)%N || (n =? 9)%N || (n =? 10)%N || (n =? 13)%N.

Fixpoint skip_space (s : string) : string :=
  match s with
  | EmptyString => EmptyString
  | String c r => if is_json_space c then skip_space r else s
  end.

Definition hex_value (c : ascii) : option N :=
  let n := N_of_ascii c in
  if (48 <=? n)%N && (n <=? 57)%N then Some (n - 48)%N
  else if (97 <=? n)%N && (n <=? 102)%N then Some (n - 87)%N
  else if (65 <=? n)%N && (n <=? 70)%N then Some (n - 55)%N
  else None.

Definition hex_digit (n : N) : ascii :=
  ascii_of_N (if (n <? 10)%N then n + 48 else n + 87)%N.

(** The character a two-character escape stands for. *)
Definition unescape (c : ascii) : option ascii :=
  match c with
  | "034"%char => Some "034"%char
  | "\"%char => Some "\"%char
  | "/"%char => Some "/"%char
  | "b"%char => Some "008"%char
  | "f"%char => Some "012"%char
  | "n"%char => Some "010"%char
  | "r"%char => Some "013"%char
  | "t"%char => Some "009"%char
  | _ => None
  end.

Definition cons_char (c : ascii) (r : option (string * string)) : option (string * string) :=
  match r with
  | Some (s, rest) => Some (String c s, rest)
  | None => None
  end.

(** The characters of a string literal after its opening quote, and the
    text after its closing quote. A [\u] escape of a code unit above 255
    has no counterpart in the model and is refused. *)
Fixpoint read_chars (s : string) : option (string * string) :=
  match s with
  | EmptyString => None
  | String c r =>
      if Ascii.eqb c "034" then Some (EmptyString, r)
      else if Ascii.eqb c "\" then
        match r with
        | String "u" (String a (String b (String x (String y r')))) =>
            match hex_value a, hex_value b, hex_value x, hex_value y with
            | Some 0%N, Some 0%N, Some h, Some l =>
                cons_char (ascii_of_N (16 * h + l)) (read_chars r')
            | _, _, _, _ => None
            end
        | String e r' =>
            match unescape e with
            | Some x => cons_char x (read_chars r')
            | None => None
            end
        | EmptyString => None
        end
      else if (N_of_ascii c <? 32)%N then None
      else cons_char c (read_chars r)
  end.

(** [QuoteJSONString]: the escapes [JSON.stringify] writes. *)
Definition escape (c : ascii) (k : string) : string :=
  match c with
  | "008"%char => String "\" (String "b" k)
  | "009"%char => String "\" (String "t" k)
  | "010"%char => String "\" (String "n" k)
  | "012"%char => String "\" (String "f" k)
  | "013"%char => String "\" (String "r" k)
  | "034"%char => String "\" (String "034" k)
  | "\"%char => String "\" (String "\" k)
  | _ =>
      let n := N_of_ascii c in
      if (n <? 32)%N
      then String "\" (String "u" (String "0" (String "0"
             (String (hex_digit (n / 16)) (String (hex_digit (n mod 16)) k)))))
      else String c k
  end.

Fixpoint write_chars (s : string) (k : string) : string :=
  match s with
  | EmptyString => String "034" k
  | String c r => escape c (write_chars r k)
  end.

(** The text of the string literal for [s], followed by [k]. *)
Definition write_string (s : string) (k : string) : string :=
  String "034" (write_chars s k).

(** [obj[k] = v] while an object literal is read: a repeated key keeps its
    place and takes the later value. *)
Fixpoint define_property (k : string) (v : json) (props : list (string * json))
    : list (string * json) :=
  match props with
  | [] => [(k, v)]
  | (k', v') :: rest =>
      if String.eqb k k' then (k, v) :: rest else (k', v') :: define_property k v rest
  end.

Definition object_of (members : list (string * json)) : json :=
  JObj (fold_left (λ props m, define_property (fst m) (snd m) props) members []).

Fixpoint read_value (fuel : nat) (s : string) : option (json * string) :=
  match fuel with
  | O => None
  | S fuel =>
      match skip_space s with
      | String "034" r =>
          match read_chars r with
          | Some (str, rest) => Some (JStr str, rest)
          | None => None
          end
      | String "[" r =>
          match skip_space r with
          | String "]" rest => Some (JArr [], rest)
          | _ =>
              match read_elements fuel r with
              | Some (xs, rest) => Some (JArr xs, rest)
              | None => None
              end
          end
      | String "{" r =>
          match skip_space r with
          | String "}" rest => Some (JObj [], rest)
          | _ =>
              match read_members fuel r with
              | Some (members, rest) => Some (object_of members, rest)
              | None => None
              end
          end
      | String "n" (String "u" (String "l" (String "l" rest))) => Some (JNull, rest)
      | String "t" (String "r" (String "u" (String "e" rest))) => Some (JBool true, rest)
      | String "f" (String "a" (String "l" (String "s" (String "e" rest)))) =>
          Some (JBool false, rest)
      | _ => None
      end
  end
with read_elements (fuel : nat) (s : string) : option (list json * string) :=
  match fuel with
  | O => None
  | S fuel =>
      match read_value fuel s with
      | Some (x, rest) =>
          match skip_space rest with
          | String "," rest' =>
              match read_elements fuel rest' with
              | Some (xs, rest'') => Some (x :: xs, rest'')
              | None => None
              end
          | String "]" rest' => Some ([x], rest')
          | _ => None
          end
      | None => None
      end
  end
with read_members (fuel : nat) (s : string) : option (list (string * json) * string) :=
  match fuel with
  | O => None
  | S fuel =>
      match skip_space s with
      | String "034" r =>
          match read_chars r with
          | Some (k, rest) =>
              match skip_space rest with
              | String ":" rest' =>
                  match read_value fuel rest' with
                  | Some (v, rest'') =>
                      match skip_space rest'' with
                      | String "," rest3 =>
                          match read_members fuel rest3 with
                          | Some (members, rest4) => Some ((k, v) :: members, rest4)
                          | None => None
                          end
                      | String "}" rest3 => Some ([(k, v)], rest3)
                      | _ => None
                      end
                  | None => None
                  end
              | _ => None
              end
          | None => None
          end
      | _ => None
      end
  end.

(** The reader of a whole text: one value and nothing but white space
    after it. *)
Definition read_json (s : string) : option json :=
  match read_value (S (String.length s)) s with
  | Some (v, rest) =>
      match skip_space rest with
      | EmptyString => Some v
      | _ => None
      end
  | None => None
  end.

(** The text of [v], followed by [k]. A number has no text in this
    fragment; it is written as [null], as [JSON.stringify] writes [NaN]. *)
Fixpoint write_value (v : json) (k : string) : string :=
  match v with
  | JNull | JNum _ => "null" ++ k
  | JBool true => "true" ++ k
  | JBool false => "false" ++ k
  | JStr s => write_string s k
  | JArr xs =>
      String "["
        ((fix elements (xs : list json) (k : string) : string :=
            match xs with
            | [] => k
            | [x] => write_value x k
            | x :: rest => write_value x (String "," (elements rest k))
            end) xs (String "]" k))
  | JObj props =>
      String "{"
        ((fix members (props : list (string * json)) (k : string) : string :=
            match props with
            | [] => k
            | [(key, x)] => write_string key (String ":" (write_value x k))
            | (key, x) :: rest =>
                write_string key (String ":" (write_value x (String "," (members rest k))))
            end) props (String "}" k))
  end.

Definition write_json (v : json) : string := write_value v "".

(** A saved meeting as the object [JSON.stringify] sees. *)
Definition json_of_turn (turn : SpeakerTurn) : json :=
  JObj [("speaker", JStr (speaker turn)); ("text", JStr (text turn))].

Definition json_of_analysis (result : AnalysisResult) : json :=
  JObj [("transcript", JArr (map json_of_turn (transcript result)));
        ("summary", JStr (summary result));
        ("actionItems", JStr (actionItems result))].

Definition json_of_meeting (m : Meeting) : json :=
  JObj [("id", JStr (id m)); ("title", JStr (title m));
        ("timestamp", JStr (timestamp m));
        ("analysis", json_of_analysis (analysis m))].

Definition as_Meeting (v : json) : option Meeting :=
  i ← get_property v "id" ≫= as_string;
  t ← get_property v "title" ≫= as_string;
  ts ← get_property v "timestamp" ≫= as_string;
  a ← get_property v "analysis" ≫= as_AnalysisResult;
  Some (mkMeeting i t ts a).

Definition as_meetings (v : json) : option (list Meeting) :=
  match v with
  | JArr xs => mapM as_Meeting xs
  | _ => None
  end.

(** Days from 1970-01-01 to the given day of the proleptic Gregorian
    calendar. *)
Definition days_from_civil (y m d : Z) : Z :=
  let y := if m <=? 2 then y - 1 else y in
  let era := y / 400 in
  let yoe := y - era * 400 in
  let mp := (m + 9) mod 12 in
  let doy := (153 * mp + 2) / 5 + d - 1 in
  let doe := yoe * 365 + yoe / 4 - yoe / 100 + doy in
  era * 146097 + doe - 719468.

Definition days_in_month (y m : Z) : Z :=
  if m =? 2 then
    if ((y mod 4 =? 0) && negb (y mod 100 =? 0)) || (y mod 400 =? 0) then 29 else 28
  else if (m =? 4) || (m =? 6) || (m =? 9) || (m =? 11) then 30
  else 31.

Definition digit (c : ascii) : option Z :=
  let n := Z.of_N (N_of_ascii c) in
  if (48 <=? n) && (n <=? 57) then Some (n - 48) else None.

Fixpoint digits (cs : list ascii) (acc : Z) : option Z :=
  match cs with
  | [] => Some acc
  | c :: rest =>
      match digit c with
      | Some d => digits rest (10 * acc + d)
      | None => None
      end
  end.

(** The time value, in milliseconds, of a timestamp of the form
    [YYYY-MM-DDTHH:mm:ss.sssZ]; anything else is an invalid date here. *)
Definition iso_getTime (s : string) : option Z :=
  match list_ascii_of_string s with
  | [y1; y2; y3; y4; "-"; m1; m2; "-"; d1; d2; "T";
     h1; h2; ":"; n1; n2; ":"; s1; s2; "."; f1; f2; f3; "Z"]%char =>
      y ← digits [y1; y2; y3; y4] 0;
      m ← digits [m1; m2] 0;
      d ← digits [d1; d2] 0;
      h ← digits [h1; h2] 0;
      n ← digits [n1; n2] 0;
      sec ← digits [s1; s2] 0;
      ms ← digits [f1; f2; f3] 0;
      if (1 <=? m) && (m <=? 12) && (1 <=? d) && (d <=? days_in_month y m)
         && (h <=? 23) && (n <=? 59) && (sec <=? 59)
      then Some ((((days_from_civil y m d * 24 + h) * 60 + n) * 60 + sec) * 1000 + ms)
      else None
  | _ => None
  end.

Definition referencePlatform : Platform := {|
  JSON_parse := read_json;
  JSON_parse_meetings := λ s, read_json s ≫= as_meetings;
  JSON_stringify_meetings := λ meetings, write_json (JArr (map json_of_meeting meetings));
  Date_getTime := iso_getTime;
  Date_toLocaleString := λ s, s;
|}.

(** The elements of an array and the members of an object as
    [write_value] writes them, each followed by [k]. *)
Fixpoint write_elements (xs : list json) (k : string) : string :=
  match xs with
  | [] => k
  | [x] => write_value x k
  | x :: rest => write_value x (String "," (write_elements rest k))
  end.

Fixpoint write_members (props : list (string * json)) (k : string) : string :=
  match props with
  | [] => k
  | [(key, x)] => write_string key (String ":" (write_value x k))
  | (key, x) :: rest =>
      write_string key (String ":" (write_value x (String "," (write_members rest k))))
  end.

(** The fuel [read_value] needs for the text of [v]. *)
Fixpoint json_size (v : json) : nat :=
  match v with
  | JArr xs => S (list_sum (map (λ x, S (json_size x)) xs))
  | JObj props => S (list_sum (map (λ p, S (json_size (snd p))) props))
  | _ => 1
  end.

(** The values the reference reader and writer agree on: no numbers, and
    no key twice in an object. *)
Fixpoint plain_json (v : json) : bool :=
  match v with
  | JNum _ => false
  | JArr xs => forallb plain_json xs
  | JObj props =>
      bool_decide (NoDup (map fst props)) && forallb (λ p, plain_json (snd p)) props
  | _ => true
  end.

(** What the text of a value begins with: no white space and no closing
    bracket, so the reader takes what follows for a value. *)
Definition opens_value (s : string) : Prop :=
  ∃ c r, s = String c r
         ∧ (c = "034" ∨ c = "[" ∨ c = "{" ∨ c = "n" ∨ c = "t" ∨ c = "f")%char.

(** The three fields [analyzeMeetingAudio] requires. *)
Definition requiredFields : list string := ["transcript"; "summary"; "actionItems"].

(** Every required field of the payload is present and truthy. *)
Definition requiredFieldsTruthy (payload : json) : Prop :=
  ∀ field, field ∈ requiredFields →
    ∃ v, get_property payload field = Some v ∧ truthy v = true.

(** The message every failure of [analyzeMeetingAudio] carries. *)
Definition ANALYZE_FAILED : string := "Failed to process audio with Gemini API.".

(** ** Sample inputs

    The inputs the properties are run on, on the reference platform. *)

Definition emptyStorage : Storage := mkStorage ∅ true true.

Definition storageWith (meetings : list Meeting) : Storage :=
  mkStorage {[ STORAGE_KEY := @JSON_stringify_meetings referencePlatform meetings ]}
    true true.

Definition standup : File := mkFile "standup.mp3" "audio/mpeg".

Definition standupAnalysis : AnalysisResult :=
  mkAnalysis
    [mkTurn "Speaker 2" "Good morning."; mkTurn "Speaker 1" "Hello";
     mkTurn "Speaker 2" "Shall we start?"]
    "* Greetings" "* Start the meeting".

(** A response of the model within the schema. *)
Definition standupResponse : remote_response :=
  Resolved (Some (write_json (json_of_analysis standupAnalysis))).

(** A response in which one turn has the empty string for its speaker. *)
Definition unnamedResponse : remote_response :=
  Resolved (Some (write_json (json_of_analysis
    (mkAnalysis [mkTurn "" "Hello"] "* Greetings" "* None")))).

(** The payload
    [{"transcript":[{"speaker":"Speaker 1"}],"summary":"* s","actionItems":"* a"}],
    whose one turn has no text. *)
Definition turnWithoutText : json :=
  JObj [("transcript", JArr [JObj [("speaker", JStr "Speaker 1")]]);
        ("summary", JStr "* s"); ("actionItems", JStr "* a")].

(** The payload
    [{"transcript":[{"speaker":"Speaker 1","text":"Hello"}],"summary":"","actionItems":"* a"}],
    whose summary is the empty string. *)
Definition emptySummary : json :=
  JObj [("transcript", JArr [json_of_turn (mkTurn "Speaker 1" "Hello")]);
        ("summary", JStr ""); ("actionItems", JStr "* a")].

Definition january : Meeting :=
  mkMeeting "id-january" "kickoff" "2024-01-01T09:00:00.000Z"
    (mkAnalysis [mkTurn "Alice" "We ship in June."] "* Ship in June" "* Plan").

Definition march : Meeting :=
  mkMeeting "id-march" "review" "2024-03-01T09:00:00.000Z"
    (mkAnalysis [mkTurn "Bob" "We ship in July."] "* Ship in July" "* Replan").

(** From an empty storage to the result pane of [standup]. *)
Definition toResultPane (response : remote_response) : list event :=
  [FileChange (Some standup); ProcessAudio; AnalysisSettled (Responded response)].

Definition referenceRun (es : list event) (ls : Storage) : World :=
  @run referencePlatform es (@mount referencePlatform ls).

(** The comparator [cmp] orders [x] and [y] as the relation [R] does. *)
Definition agrees {A} (cmp : A → A → Z) (R : A → A → Prop) (x y : A) : Prop :=
  (cmp x y ≤ 0 → R x y) ∧ (0 < cmp x y → R y x).

(** ** App.tsx: the rest of the component *)

(** [String.prototype.split(",")]. *)
Fixpoint split_comma (s : string) : list string :=
  match s with
  | EmptyString => [EmptyString]
  | String c r =>
      if Ascii.eqb c ","
      then EmptyString :: split_comma r
      else
        match split_comma r with
        | piece :: pieces => String c piece :: pieces
        | [] => [String c EmptyString]
        end
  end.

(** What [fileToBase64] resolves to when the reader has loaded the data URL
    [result]: [result.split(',')[1]], [None] being [undefined]. *)
Definition fileToBase64_onload (result : string) : option string :=
  split_comma result !! 1%nat.

(** The palette of [speakerColors]. *)
Definition colors : list string :=
  ["bg-sky-900/50"; "bg-emerald-900/50"; "bg-indigo-900/50";
   "bg-rose-900/50"; "bg-amber-900/50"; "bg-fuchsia-900/50"].

(** [uniqueSpeakers.forEach((speaker, index) => speakerMap.set(speaker,
    colors[index % colors.length]))], from the given index on. *)
Fixpoint forEach_set (speakers : list string) (index : nat)
    (speakerMap : gmap string string) : gmap string string :=
  match speakers with
  | [] => speakerMap
  | speaker :: rest =>
      forEach_set rest (S index)
        (<[speaker := colors !!! (index mod length colors)%nat]> speakerMap)
  end.

Definition speakerColors (speakers : list string) : gmap string string :=
  forEach_set speakers 0 ∅.

(** The background of a turn: [speakerColors.get(turn.speaker) ||
    'bg-gray-800/50']. *)
Definition turnColor (speakers : list string) (turn : SpeakerTurn) : string :=
  match speakerColors speakers !! speaker turn with
  | Some color => if truthy_string color then color else "bg-gray-800/50"
  | None => "bg-gray-800/50"
  end.

(** Every character of [s] is white space. *)
Definition blank (s : string) : Prop :=
  Forall (λ c, is_white_space c = true) (list_ascii_of_string s).

(** No character of [s] is a comma. *)
Definition comma_free (s : string) : Prop :=
  Forall (λ c, c ≠ ","%char) (list_ascii_of_string s).

(** How the analysis on screen, the discovered speakers and the name map
    hang together in every reachable state. *)
Record coherent (s : State) : Prop := mkCoherent {
  coh_result : is_Some (analysisResult s) ↔ appState s = SUCCESS;
  coh_names : ∀ k, is_Some (speakerNameMap s !! k) ↔ k ∈ uniqueSpeakers s;
  coh_sorted : StronglySorted lexically_before (uniqueSpeakers s);
  coh_turns : ∀ result turn,
    analysisResult s = Some result → turn ∈ transcript result →
    speaker turn ∈ uniqueSpeakers s;
}.

Section StoredNotions.
Context `{Platform}.

(** The text in the storage is the text of the saved meetings, in some
    order. *)
Definition stored_matches (w : World) : Prop :=
  ∃ meetings,
    items (localStorage w) !! STORAGE_KEY = Some (JSON_stringify_meetings meetings)
    ∧ meetings ≡ₚ savedMeetings (ui w).

(** [a] is dated no earlier than [b]. *)
Definition newest_first (a b : Meeting) : Prop := chronological b a.
End StoredNotions.

(** * Properties *)

(** ** Sorting *)

Section Sorting.
Context {A : Type} (cmp : A → A → Z).

Lemma sort_insert_Permutation x sorted :
  sort_insert cmp x sorted ≡ₚ x :: sorted.
Proof.
  induction sorted as [|y rest IH]; simpl; [done|].
  destruct (cmp x y <=? 0); [done|].
  rewrite IH. apply Permutation_swap.
Qed.

Lemma Array_sort_Permutation xs : Array_sort cmp xs ≡ₚ xs.
Proof.
  induction xs as [|x xs IH]; simpl; [done|].
  rewrite sort_insert_Permutation. by f_equiv.
Qed.

Lemma Array_sort_length xs : length (Array_sort cmp xs) = length xs.
Proof. by rewrite Array_sort_Permutation. Qed.

Lemma elem_of_Array_sort x xs : x ∈ Array_sort cmp xs ↔ x ∈ xs.
Proof. by rewrite Array_sort_Permutation. Qed.

(** When the comparator agrees with a transitive relation [R] on the
    elements of the array, the result is sorted by [R]. *)
Context (R : A → A → Prop) `{!Transitive R}.

Lemma sort_insert_sorted x sorted :
  Forall (agrees cmp R x) sorted →
  StronglySorted R sorted → StronglySorted R (sort_insert cmp x sorted).
Proof.
  induction sorted as [|y rest IH]; intros Hx Hs; simpl.
  - repeat constructor.
  - apply Forall_cons in Hx as [[Hle Hgt] Hx].
    apply StronglySorted_inv in Hs as [Hs Hy].
    destruct (Z.leb_spec (cmp x y) 0) as [Hc|Hc].
    + constructor; [by constructor|].
      constructor; [by apply Hle|].
      eapply Forall_impl; [exact Hy|]. intros z Hz. by trans y; [apply Hle|].
    + constructor; [by apply IH|].
      rewrite sort_insert_Permutation. constructor; [by apply Hgt|done].
Qed.

Lemma Array_sort_sorted xs :
  (∀ x y, x ∈ xs → y ∈ xs → agrees cmp R x y) →
  StronglySorted R (Array_sort cmp xs).
Proof.
  induction xs as [|x xs IH]; intros Hag; simpl; [constructor|].
  apply sort_insert_sorted.
  - apply Forall_forall. intros y Hy. rewrite elem_of_Array_sort in Hy.
    apply Hag; set_solver.
  - apply IH. intros y z Hy Hz. apply Hag; set_solver.
Qed.

(** The sort is stable: when the comparator orders by a key, the elements
    of one key come out in the order they went in. *)
Context (key : A → Z).

Lemma sort_insert_stable (t : Z) x sorted :
  Forall (λ y, cmp x y ≤ 0 ↔ key x ≤ key y) sorted →
  filter (λ y, key y = t) (sort_insert cmp x sorted)
  = filter (λ y, key y = t) (x :: sorted).
Proof.
  induction sorted as [|y rest IH]; intros Hkey; simpl; [done|].
  apply Forall_cons in Hkey as [Hxy Hkey].
  destruct (Z.leb_spec (cmp x y) 0) as [Hc|Hc]; [done|].
  rewrite filter_cons, (IH Hkey), !filter_cons.
  repeat case_decide; try done. lia.
Qed.

Lemma Array_sort_stable (t : Z) xs :
  (∀ x y, x ∈ xs → y ∈ xs → (cmp x y ≤ 0 ↔ key x ≤ key y)) →
  filter (λ y, key y = t) (Array_sort cmp xs) = filter (λ y, key y = t) xs.
Proof.
  induction xs as [|x xs IH]; intros Hkey; simpl; [done|].
  rewrite sort_insert_stable.
  - rewrite !filter_cons, IH; [done|]. intros y z Hy Hz. apply Hkey; set_solver.
  - apply Forall_forall. intros y Hy. rewrite elem_of_Array_sort in Hy.
    apply Hkey; set_solver.
Qed.
End Sorting.

(** ** The context of a question is in chronological order *)

Section AnswerContext.
Context `{Platform}.

#[local] Instance chronological_trans : Transitive chronological.
Proof.
  intros a b c. unfold chronological.
  destruct (Date_getTime (timestamp a)), (Date_getTime (timestamp b)),
    (Date_getTime (timestamp c)); try done. lia.
Qed.

Lemma by_timestamp_agrees a b :
  is_Some (Date_getTime (timestamp a)) → is_Some (Date_getTime (timestamp b)) →
  agrees by_timestamp chronological a b.
Proof.
  intros [ta Ha] [tb Hb]. unfold agrees, by_timestamp, chronological.
  rewrite Ha, Hb. lia.
Qed.

(** C2. Whatever the order of the meetings passed in, the context blocks
    are the blocks of those same meetings arranged by non-decreasing
    timestamp; two meetings passed newest first come out oldest first. *)
Theorem contextBlocks_chronological (meetings : list Meeting) :
  validTimestamps meetings →
  contextBlocks meetings = map formatMeeting (Array_sort by_timestamp meetings)
  ∧ Array_sort by_timestamp meetings ≡ₚ meetings
  ∧ StronglySorted chronological (Array_sort by_timestamp meetings)
  ∧ (∀ january march tj tm,
       meetings = [march; january] →
       Date_getTime (timestamp january) = Some tj →
       Date_getTime (timestamp march) = Some tm →
       tj < tm →
       formattedContext meetings
       = formatMeeting january ++ LF ++ LF ++ formatMeeting march).
Proof.
  intros Hvalid. split_and!.
  - done.
  - apply Array_sort_Permutation.
  - apply Array_sort_sorted; [apply _|].
    intros a b Ha Hb. apply by_timestamp_agrees; by apply Hvalid.
  - intros january march tj tm -> Hj Hm Hlt.
    unfold formattedContext, contextBlocks. simpl.
    unfold by_timestamp at 1. rewrite Hj, Hm.
    destruct (Z.leb_spec (tm - tj) 0); [lia|]. done.
Qed.
End AnswerContext.

(** ** Discovering the speakers of an analysis *)

Section Speakers.
#[local] Instance lexically_before_strict : StrictOrder lexically_before.
Proof. exact String_as_OT.lt_strorder. Qed.

#[local] Instance lexically_before_antisymm : AntiSymm (=) lexically_before.
Proof. intros a b Hab Hba. destruct (irreflexivity lexically_before a). by trans b. Qed.

#[local] Instance lexically_le_trans : Transitive lexically_le.
Proof.
  intros a b c [->|Hab] [->|Hbc]; unfold lexically_le; auto.
  right. by trans b.
Qed.

Lemma default_compare_agrees a b : agrees default_compare lexically_le a b.
Proof.
  unfold agrees, default_compare, lexically_le, lexically_before.
  destruct (String_as_OT.compare_spec a b) as [Heq|Hlt|Hgt]; split; try lia; auto.
Qed.

Lemma Set_values_acc xs seen :
  NoDup seen →
  NoDup (fold_left Set_add xs seen)
  ∧ ∀ x, x ∈ fold_left Set_add xs seen ↔ x ∈ seen ∨ x ∈ xs.
Proof.
  revert seen. induction xs as [|y xs IH]; intros seen Hnd; simpl.
  - split; [done|]. set_solver.
  - destruct (IH (Set_add seen y)) as [Hnd' Hin].
    + unfold Set_add. case_decide; [done|].
      apply NoDup_app. split_and!; [done|set_solver|apply NoDup_singleton].
    + split; [done|]. intros x. rewrite Hin. unfold Set_add.
      case_decide; set_solver.
Qed.

Lemma Set_values_NoDup xs : NoDup (Set_values xs).
Proof. apply Set_values_acc, NoDup_nil_2. Qed.

Lemma elem_of_Set_values x xs : x ∈ Set_values xs ↔ x ∈ xs.
Proof.
  unfold Set_values.
  destruct (Set_values_acc xs [] NoDup_nil_2) as [_ ->]. set_solver.
Qed.

Lemma StronglySorted_strict (l : list string) :
  NoDup l → StronglySorted lexically_le l → StronglySorted lexically_before l.
Proof.
  induction 2 as [|x l Hs IH Hall]; [constructor|].
  apply NoDup_cons in H as [Hx Hnd]. constructor; [by apply IH|].
  apply Forall_forall. intros y Hy.
  rewrite Forall_forall in Hall. destruct (Hall y Hy) as [->|]; done.
Qed.

Lemma lexically_sorted_NoDup (l : list string) :
  StronglySorted lexically_before l → NoDup l.
Proof.
  induction 1 as [|x l Hs IH Hall]; [apply NoDup_nil_2|].
  apply NoDup_cons. split; [|done]. intros Hx.
  rewrite Forall_forall in Hall.
  by destruct (irreflexivity lexically_before x); apply Hall.
Qed.

Lemma discoverSpeakers_elem_of result x :
  x ∈ discoverSpeakers result ↔ x ∈ map speaker (transcript result).
Proof.
  unfold discoverSpeakers. by rewrite elem_of_Array_sort, elem_of_Set_values.
Qed.

Lemma discoverSpeakers_sorted result :
  StronglySorted lexically_before (discoverSpeakers result).
Proof.
  unfold discoverSpeakers. apply StronglySorted_strict.
  - rewrite Array_sort_Permutation. apply Set_values_NoDup.
  - apply Array_sort_sorted; [apply _|]. intros a b _ _. apply default_compare_agrees.
Qed.

Lemma initialMap_acc speakers (acc : gmap string string) k :
  fold_left (λ acc speaker, <[speaker := speaker]> acc) speakers acc !! k
  = if decide (k ∈ speakers) then Some k else acc !! k.
Proof.
  revert acc. induction speakers as [|x speakers IH]; intros acc; cbn [fold_left].
  - by rewrite decide_False by set_solver.
  - rewrite IH. destruct (decide (k ∈ speakers)) as [Hin|Hin].
    + by rewrite decide_True by set_solver.
    + destruct (decide (k = x)) as [->|Hne].
      * rewrite lookup_insert_eq. by rewrite decide_True by set_solver.
      * rewrite lookup_insert_ne by done. by rewrite decide_False by set_solver.
Qed.

Lemma initialMap_lookup speakers k :
  initialMap speakers !! k = if decide (k ∈ speakers) then Some k else None.
Proof. unfold initialMap. rewrite initialMap_acc. by rewrite lookup_empty. Qed.

(** C5. After a successful analysis the discovered speakers are exactly
    the speakers of the transcript, each once, in lexical order, and the
    name map sends each of them to itself and holds nothing else; with
    the speakers "Speaker 1" and "Speaker 2" the list is those two in
    that order and the map has those two identity entries. *)
Theorem processAudio_success_speakers (result : AnalysisResult) (s : State) :
  let s' := processAudio_success result s in
  analysisResult s' = Some result
  ∧ appState s' = SUCCESS
  ∧ (∀ x, x ∈ uniqueSpeakers s' ↔ x ∈ map speaker (transcript result))
  ∧ StronglySorted lexically_before (uniqueSpeakers s')
  ∧ (∀ x, speakerNameMap s' !! x
          = if decide (x ∈ uniqueSpeakers s') then Some x else None)
  ∧ ((∀ x, x ∈ map speaker (transcript result)
           ↔ x = "Speaker 1" ∨ x = "Speaker 2") →
     uniqueSpeakers s' = ["Speaker 1"; "Speaker 2"]
     ∧ speakerNameMap s'
       = {[ "Speaker 1" := "Speaker 1"; "Speaker 2" := "Speaker 2" ]}).
Proof.
  simpl. split_and!; [done|done|..].
  - apply discoverSpeakers_elem_of.
  - apply discoverSpeakers_sorted.
  - apply initialMap_lookup.
  - intros Hsp.
    assert (discoverSpeakers result = ["Speaker 1"; "Speaker 2"]) as ->.
    { apply (StronglySorted_unique lexically_before).
      - apply discoverSpeakers_sorted.
      - repeat constructor.
      - apply NoDup_Permutation.
        + apply lexically_sorted_NoDup, discoverSpeakers_sorted.
        + apply NoDup_cons. split; [set_solver|apply NoDup_singleton].
        + intros x. rewrite discoverSpeakers_elem_of, Hsp. set_solver. }
    split; [done|]. apply map_eq. intros k. rewrite initialMap_lookup.
    case_decide as Hk.
    + apply elem_of_cons in Hk as [->|Hk]; [done|].
      apply list_elem_of_singleton in Hk as ->. done.
    + rewrite lookup_insert_ne by set_solver.
      by rewrite lookup_singleton_ne by set_solver.
Qed.
End Speakers.

(** ** Committing inline edits *)

Section Edits.
Lemma updatedTranscript_lookup editing turns j :
  updatedTranscript editing turns !! j
  = (λ turn, if Nat.eqb j (fst editing)
             then mkTurn (speaker turn) (trim (snd editing)) else turn)
    <$> turns !! j.
Proof. unfold updatedTranscript. apply list_lookup_imap. Qed.

Lemma updatedTranscript_speakers editing turns :
  map speaker (updatedTranscript editing turns) = map speaker turns.
Proof.
  apply list_eq. intros j. rewrite !list_lookup_fmap, updatedTranscript_lookup.
  destruct (turns !! j) as [turn|]; simpl; [|done].
  by destruct (Nat.eqb j (fst editing)).
Qed.

(** C7. Committing the edit of turn [i] sets the text of that turn to the
    trimmed input, whatever it is, and changes nothing else of the
    transcript: the number of turns, their order, every speaker and every
    other text stay as they were. *)
Theorem handleSaveTranscript_frame (s : State) (i : nat) (value : string)
    (result : AnalysisResult) :
  editingTranscript s = Some (i, value) →
  analysisResult s = Some result →
  ∃ result',
    analysisResult (handleSaveTranscript s) = Some result'
    ∧ editingTranscript (handleSaveTranscript s) = None
    ∧ length (transcript result') = length (transcript result)
    ∧ map speaker (transcript result') = map speaker (transcript result)
    ∧ (∀ turn, transcript result !! i = Some turn →
         transcript result' !! i = Some (mkTurn (speaker turn) (trim value)))
    ∧ (∀ j, j ≠ i → transcript result' !! j = transcript result !! j)
    ∧ summary result' = summary result
    ∧ actionItems result' = actionItems result.
Proof.
  intros Hed Hres. unfold handleSaveTranscript. rewrite Hed, Hres.
  eexists. split; [reflexivity|]. simpl. split_and!; try done.
  - unfold updatedTranscript. apply length_imap.
  - apply updatedTranscript_speakers.
  - intros turn Hi. rewrite updatedTranscript_lookup, Hi. simpl.
    by rewrite Nat.eqb_refl.
  - intros j Hj. rewrite updatedTranscript_lookup. simpl.
    apply Nat.eqb_neq in Hj as ->. by destruct (transcript result !! j).
Qed.

(** Committing a speaker name: for a speaker whose identifier is not the
    empty string, a name that is not blank replaces that speaker's entry
    and no other. *)
Lemma handleSaveSpeakerName_commit (s : State) (speakerId : string) :
  editingSpeaker s = Some speakerId →
  speakerId ≠ "" →
  trim (tempSpeakerName s) ≠ "" →
  let s' := handleSaveSpeakerName s in
  speakerNameMap s' !! speakerId = Some (trim (tempSpeakerName s))
  ∧ (∀ other, other ≠ speakerId →
       speakerNameMap s' !! other = speakerNameMap s !! other)
  ∧ analysisResult s' = analysisResult s
  ∧ editingSpeaker s' = None.
Proof.
  intros Hed Hid Htrim. unfold handleSaveSpeakerName. rewrite Hed.
  unfold truthy_string.
  apply String.eqb_neq in Hid as ->. apply String.eqb_neq in Htrim as ->.
  simpl. split_and!; try done.
  - apply lookup_insert_eq.
  - intros other Hne. by apply lookup_insert_ne.
Qed.

(** Committing a blank name keeps the map and closes the editor. *)
Lemma handleSaveSpeakerName_blank (s : State) :
  trim (tempSpeakerName s) = "" →
  let s' := handleSaveSpeakerName s in
  speakerNameMap s' = speakerNameMap s
  ∧ analysisResult s' = analysisResult s
  ∧ editingSpeaker s' = None.
Proof.
  intros Htrim. unfold handleSaveSpeakerName. rewrite Htrim.
  destruct (editingSpeaker s) as [k|]; [|done].
  by rewrite andb_false_r.
Qed.
End Edits.

(** ** The title of a saved meeting *)

Section Title.

Lemma extension_tail_dot prefix rest :
  extension_tail (prefix ++ String "." rest) = false.
Proof.
  induction prefix as [|c r IH]; simpl.
  - done.
  - rewrite IH. destruct r; simpl; by rewrite andb_false_r.
Qed.

End Title.

(** ** Invariants of the reachable states *)

Section Invariants.
Context `{Platform}.

Lemma invariant_frame (s s' : State) :
  appState s' = appState s →
  audioFile s' = audioFile s →
  speakerNameMap s' = speakerNameMap s →
  selectedMeetingIds s' = selectedMeetingIds s →
  map id (savedMeetings s') ≡ₚ map id (savedMeetings s) →
  invariant s → invariant s'.
Proof.
  intros Ha Hf Hn Hsel Hsaved [I1 I2 I3].
  split; rewrite ?Ha, ?Hf, ?Hn, ?Hsel; try done.
  intros i Hi. rewrite Hsaved. by apply I3.
Qed.

Ltac frame :=
  first [ eassumption
        | eapply invariant_frame; [| | | | |eassumption]; (reflexivity || done) ].

Lemma invariant_initial : invariant initialState.
Proof. split; simpl; [done|intros k v Hk; by rewrite lookup_empty in Hk|set_solver]. Qed.

Lemma invariant_mount ls : invariant (ui (mount ls)).
Proof.
  assert (invariant (load_effect ls initialState)) as Hload.
  { unfold load_effect. repeat case_match; try apply invariant_initial;
      (split; simpl; [done|intros k v Hk; by rewrite lookup_empty in Hk|set_solver]). }
  unfold mount, persist_effect. simpl. repeat case_match; simpl; frame.
Qed.

Lemma invariant_render s : invariant s → invariant (render s).
Proof.
  intros Hinv. unfold render. destruct (view s); [done|].
  eapply invariant_frame; [..|exact Hinv]; try done. simpl.
  by rewrite Array_sort_Permutation.
Qed.

Lemma invariant_success result s :
  invariant s → appState s = LOADING → invariant (processAudio_success result s).
Proof.
  intros [I1 I2 I3] Hloading. split; simpl; [|intros k v|done].
  - intros _. apply I1. by rewrite Hloading.
  - rewrite initialMap_lookup. case_decide; [|done]. by intros [= ->] ->.
Qed.

Lemma invariant_failure message s :
  invariant s → appState s = LOADING → invariant (processAudio_failure message s).
Proof.
  intros [I1 I2 I3] Hloading. split; simpl; [|done|done].
  intros _. apply I1. by rewrite Hloading.
Qed.

Lemma invariant_handler e s :
  invariant s → enabled s e → invariant (handler e s).
Proof.
  intros Hinv Hen. destruct e; simpl in *.
  - frame.
  - frame.
  - unfold handleFileChange. destruct file; [|done].
    destruct Hinv. split; simpl; eauto.
  - frame.
  - frame.
  - frame.
  - unfold handleDrop. destruct file; [destruct (String.prefix _ _)|]; try frame.
    destruct Hinv. split; simpl; eauto.
  - unfold processAudio_start. destruct (audioFile s) eqn:Hfile; [|frame].
    destruct Hinv. split; simpl; [rewrite Hfile; eauto|done|done].
  - destruct Hen as [Hloading Hwell].
    unfold processAudio_settle. destruct x; [by apply invariant_failure|].
    destruct (analyzeMeetingAudio response); [|by apply invariant_failure].
    destruct (as_AnalysisResult a); [by apply invariant_success|done].
  - destruct Hinv. split; simpl; [done|intros k v Hk; by rewrite lookup_empty in Hk|done].
  - unfold handleSaveMeeting. repeat case_match; try done.
    destruct Hinv as [I1 I2 I3].
    split; simpl; [done|intros k v Hk; by rewrite lookup_empty in Hk|].
    intros i Hi. rewrite map_app. apply elem_of_app. left. by apply I3.
  - frame.
  - frame.
  - unfold handleSaveSpeakerName. destruct (editingSpeaker s) as [k|]; [|frame].
    destruct (truthy_string k) eqn:Hk; [|frame].
    destruct (truthy_string (trim (tempSpeakerName s))) eqn:Hv; [|frame].
    destruct Hinv as [I1 I2 I3]. split; simpl; [done| |done].
    intros k' v. destruct (decide (k = k')) as [->|Hne].
    + rewrite lookup_insert_eq. intros [= <-] Hempty.
      by rewrite Hempty in Hv.
    + rewrite lookup_insert_ne by done. apply I2.
  - frame.
  - case_match; frame.
  - repeat case_match; frame.
  - unfold handleSaveTranscript. repeat case_match; frame.
  - frame.
  - unfold handleEditSection. repeat case_match; frame.
  - frame.
  - frame.
  - unfold handleSaveSection. repeat case_match; frame.
  - frame.
  - destruct Hen as [_ Hlisted]. destruct Hinv as [I1 I2 I3].
    split; simpl; [done|done|]. intros i. case_decide; set_solver.
  - unfold handleDeleteMeeting. destruct confirmed; [|done].
    destruct Hinv as [I1 I2 I3]. split; simpl; [done|done|].
    intros i [Hi Hne]%elem_of_difference.
    apply I3, list_elem_of_fmap in Hi as (m & -> & Hm).
    apply list_elem_of_fmap. exists m. split; [done|].
    apply list_elem_of_filter. set_solver.
  - frame.
  - unfold handleAskQuestion_start. case_match; frame.
  - unfold handleAskQuestion_settle. case_match; frame.
Qed.

Lemma invariant_step e w :
  invariant (ui w) → enabled (ui w) e → invariant (ui (step e w)).
Proof.
  intros Hinv Hen. unfold step, persist_effect.
  pose proof (invariant_render _ (invariant_handler _ _ Hinv Hen)) as Hr.
  repeat case_match; simpl; frame.
Qed.

Lemma reachable_invariant w : reachable w → invariant (ui w).
Proof.
  induction 1 as [ls|w e _ IH Hen]; [apply invariant_mount|by apply invariant_step].
Qed.
End Invariants.

(** ** Saving and deleting meetings *)

Section Transitions.
Context `{Platform}.



(** C8. A confirmed deletion removes every meeting with the given id and
    keeps every other meeting; it removes the id from the selection and
    keeps every other selected id; afterwards every selected id is the
    id of a saved meeting. *)
Theorem delete_transition (w : World) (meetingId : string) :
  reachable w →
  enabled (ui w) (DeleteMeeting true meetingId) →
  let s := ui w in
  let s' := ui (step (DeleteMeeting true meetingId) w) in
  savedMeetings (handleDeleteMeeting true meetingId s)
  = filter (λ m, id m ≠ meetingId) (savedMeetings s)
  ∧ savedMeetings s' ≡ₚ filter (λ m, id m ≠ meetingId) (savedMeetings s)
  ∧ (meetingId ∉ map id (savedMeetings s'))
  ∧ (∀ m, id m ≠ meetingId → (m ∈ savedMeetings s' ↔ m ∈ savedMeetings s))
  ∧ selectedMeetingIds s' = selectedMeetingIds s ∖ {[meetingId]}
  ∧ (meetingId ∉ selectedMeetingIds s')
  ∧ (∀ i, i ≠ meetingId →
       (i ∈ selectedMeetingIds s' ↔ i ∈ selectedMeetingIds s))
  ∧ (∀ i, i ∈ selectedMeetingIds s' → i ∈ map id (savedMeetings s')).
Proof.
  intros Hreach Hen s s'.
  pose proof (invariant_step _ _ (reachable_invariant _ Hreach) Hen) as Hinv'.
  assert (savedMeetings s' ≡ₚ filter (λ m, id m ≠ meetingId) (savedMeetings s)) as Hperm.
  { subst s'. unfold step, persist_effect, render. simpl.
    repeat case_match; simpl; try done; apply Array_sort_Permutation. }
  assert (selectedMeetingIds s' = selectedMeetingIds s ∖ {[meetingId]}) as Hsel.
  { subst s'. unfold step, persist_effect, render. simpl.
    by repeat case_match. }
  split_and!; try done.
  - rewrite Hperm. intros (m & Hid & Hm)%list_elem_of_fmap.
    by apply list_elem_of_filter in Hm as [? _].
  - intros m Hid. rewrite Hperm, list_elem_of_filter. naive_solver.
  - rewrite Hsel. set_solver.
  - intros i Hi. rewrite Hsel. set_solver.
  - apply (inv_selection _ Hinv').
Qed.
End Transitions.

(** ** The reference platform reads back what it writes *)

Section ReferenceRoundTrip.
Lemma read_chars_escape c k :
  read_chars (escape c k) = cons_char c (read_chars k).
Proof. destruct c as [[] [] [] [] [] [] [] []]; reflexivity. Qed.

Lemma read_chars_write s k : read_chars (write_chars s k) = Some (s, k).
Proof.
  induction s as [|c r IH]; simpl; [done|].
  by rewrite read_chars_escape, IH.
Qed.

Lemma write_value_array xs k :
  write_value (JArr xs) k = String "[" (write_elements xs (String "]" k)).
Proof. reflexivity. Qed.

Lemma write_value_object props k :
  write_value (JObj props) k = String "{" (write_members props (String "}" k)).
Proof. reflexivity. Qed.

Lemma define_property_fresh k v props :
  k ∉ map fst props → define_property k v props = (props ++ [(k, v)])%list.
Proof.
  induction props as [|[k' v'] rest IH]; simpl; [done|]. intros Hk.
  destruct (String.eqb_spec k k') as [->|Hne]; [set_solver|].
  rewrite IH; [done|set_solver].
Qed.

Lemma object_of_distinct members :
  NoDup (map fst members) → object_of members = JObj members.
Proof.
  unfold object_of. intros Hnd. f_equal.
  enough (∀ acc, NoDup (map fst (acc ++ members)) →
            fold_left (λ props m, define_property (fst m) (snd m) props) members acc
            = (acc ++ members)%list) as Hgen by exact (Hgen [] Hnd).
  clear Hnd. induction members as [|[k v] rest IH]; intros acc Hnd; simpl.
  - by rewrite app_nil_r.
  - rewrite map_app in Hnd. simpl in Hnd.
    apply NoDup_app in Hnd as (Hacc & Hdisj & Hrest).
    rewrite define_property_fresh by set_solver.
    rewrite IH; [by rewrite <- app_assoc|].
    rewrite <- app_assoc. simpl. rewrite map_app. simpl.
    apply NoDup_app. split_and!; [done|exact Hdisj|exact Hrest].
Qed.

Lemma write_value_opens v k : opens_value (write_value v k).
Proof.
  destruct v as [|[]| | | |]; simpl; unfold opens_value, write_string;
    eexists _, _; (split; [reflexivity|]); tauto.
Qed.

Lemma not_closing_bracket {T} (s : string) (A : string → T) (B : T) :
  opens_value s →
  match skip_space s with String "]" rest => A rest | _ => B end = B.
Proof.
  intros (c & r & -> & [->|[->|[->|[->|[->| ->]]]]]); reflexivity.
Qed.

Lemma not_closing_brace {T} (s : string) (A : string → T) (B : T) :
  opens_value s →
  match skip_space s with String "}" rest => A rest | _ => B end = B.
Proof.
  intros (c & r & -> & [->|[->|[->|[->|[->| ->]]]]]); reflexivity.
Qed.

Lemma write_elements_cons x xs k :
  write_elements (x :: xs) k
  = write_value x (match xs with [] => k | _ => String "," (write_elements xs k) end).
Proof. by destruct xs. Qed.

Lemma write_members_cons key x props k :
  write_members ((key, x) :: props) k
  = write_string key
      (String ":" (write_value x
         (match props with [] => k | _ => String "," (write_members props k) end))).
Proof. by destruct props. Qed.

Lemma json_size_pos v : (1 ≤ json_size v)%nat.
Proof. destruct v; simpl; lia. Qed.

Lemma read_value_array fuel r :
  read_value (S fuel) (String "[" r)
  = match skip_space r with
    | String "]" rest => Some (JArr [], rest)
    | _ =>
        match read_elements fuel r with
        | Some (xs, rest) => Some (JArr xs, rest)
        | None => None
        end
    end.
Proof. reflexivity. Qed.

Lemma read_value_object fuel r :
  read_value (S fuel) (String "{" r)
  = match skip_space r with
    | String "}" rest => Some (JObj [], rest)
    | _ =>
        match read_members fuel r with
        | Some (members, rest) => Some (object_of members, rest)
        | None => None
        end
    end.
Proof. reflexivity. Qed.

Lemma read_elements_step fuel s :
  read_elements (S fuel) s
  = match read_value fuel s with
    | Some (x, rest) =>
        match skip_space rest with
        | String "," rest' =>
            match read_elements fuel rest' with
            | Some (xs, rest'') => Some (x :: xs, rest'')
            | None => None
            end
        | String "]" rest' => Some ([x], rest')
        | _ => None
        end
    | None => None
    end.
Proof. reflexivity. Qed.

Lemma read_members_step fuel key r :
  read_members (S fuel) (write_string key (String ":" r))
  = match read_value fuel r with
    | Some (v, rest'') =>
        match skip_space rest'' with
        | String "," rest3 =>
            match read_members fuel rest3 with
            | Some (members, rest4) => Some ((key, v) :: members, rest4)
            | None => None
            end
        | String "}" rest3 => Some ([(key, v)], rest3)
        | _ => None
        end
    | None => None
    end.
Proof.
  unfold write_string. simpl. by rewrite read_chars_write.
Qed.

Lemma after_comma_element {T} r (A B : string → T) (C : T) :
  match skip_space (String "," r) with
  | String "," rest => A rest
  | String "]" rest => B rest
  | _ => C
  end = A r.
Proof. reflexivity. Qed.

Lemma after_comma_member {T} r (A B : string → T) (C : T) :
  match skip_space (String "," r) with
  | String "," rest => A rest
  | String "}" rest => B rest
  | _ => C
  end = A r.
Proof. reflexivity. Qed.

Lemma read_write (fuel : nat) :
  (∀ v k, plain_json v = true → (json_size v ≤ fuel)%nat →
     read_value fuel (write_value v k) = Some (v, k))
  ∧ (∀ x xs k, forallb plain_json (x :: xs) = true →
       (list_sum (map (λ x, S (json_size x)) (x :: xs)) ≤ fuel)%nat →
       read_elements fuel (write_elements (x :: xs) (String "]" k)) = Some (x :: xs, k))
  ∧ (∀ p ps k, forallb (λ p, plain_json (snd p)) (p :: ps) = true →
       (list_sum (map (λ p, S (json_size (snd p))) (p :: ps)) ≤ fuel)%nat →
       read_members fuel (write_members (p :: ps) (String "}" k)) = Some (p :: ps, k)).
Proof.
  induction fuel as [|fuel (IHv & IHe & IHm)].
  { split_and!; [intros v k _ Hsize; pose proof (json_size_pos v)|intros; simpl in *..]; lia. }
  split_and!.
  - intros v k Hplain Hsize. destruct v as [|[]|x|s|xs|props]; try done.
    + simpl. by rewrite read_chars_write.
    + rewrite write_value_array, read_value_array. destruct xs as [|x xs]; [done|].
      rewrite not_closing_bracket
        by (rewrite write_elements_cons; apply write_value_opens).
      rewrite IHe; [done|done|]. simpl in Hsize. simpl. lia.
    + rewrite write_value_object, read_value_object.
      destruct props as [|[key x] props]; [done|].
      simpl in Hplain. apply andb_prop in Hplain as [Hnd Hplain].
      apply bool_decide_eq_true in Hnd.
      rewrite not_closing_brace
        by (rewrite write_members_cons; unfold write_string, opens_value; eauto 10).
      rewrite IHm; [|done|simpl in Hsize; simpl; lia].
      by rewrite object_of_distinct.
  - intros x xs k Hplain Hsize. simpl in Hplain, Hsize.
    apply andb_prop in Hplain as [Hx Hxs].
    rewrite write_elements_cons, read_elements_step.
    rewrite IHv; [|done|lia]. destruct xs as [|y xs]; [done|].
    rewrite after_comma_element.
    rewrite IHe; [done|done|]. simpl in *. lia.
  - intros [key x] ps k Hplain Hsize. simpl in Hplain, Hsize.
    apply andb_prop in Hplain as [Hx Hps].
    rewrite write_members_cons, read_members_step.
    rewrite IHv; [|done|lia]. destruct ps as [|q ps]; [done|].
    rewrite after_comma_member.
    rewrite IHm; [done|done|]. simpl in *. lia.
Qed.

Lemma length_escape c k : (String.length k < String.length (escape c k))%nat.
Proof. destruct c as [[] [] [] [] [] [] [] []]; simpl; lia. Qed.

Lemma length_write_chars s k : (String.length k < String.length (write_chars s k))%nat.
Proof.
  induction s as [|c r IH]; simpl; [lia|].
  pose proof (length_escape c (write_chars r k)). lia.
Qed.

Lemma length_write (n : nat) :
  (∀ v k, (json_size v ≤ n)%nat →
     (json_size v + String.length k ≤ String.length (write_value v k))%nat)
  ∧ (∀ xs k, (list_sum (map (λ x, S (json_size x)) xs) ≤ n)%nat →
       (list_sum (map (λ x, S (json_size x)) xs) + String.length k
        ≤ S (String.length (write_elements xs k)))%nat)
  ∧ (∀ ps k, (list_sum (map (λ p, S (json_size (snd p))) ps) ≤ n)%nat →
       (list_sum (map (λ p, S (json_size (snd p))) ps) + String.length k
        ≤ S (String.length (write_members ps k)))%nat).
Proof.
  induction n as [|n (IHv & IHe & IHm)].
  { split_and!.
    - intros v k Hsize. pose proof (json_size_pos v). lia.
    - intros [|x xs] k Hsize; simpl in *; lia.
    - intros [|p ps] k Hsize; simpl in *; lia. }
  split_and!.
  - intros v k Hsize.
    destruct v as [|[]|x|s|xs|props]; simpl json_size;
      try (cbv [write_value String.append]; simpl; lia).
    + unfold write_value, write_string. simpl String.length.
      pose proof (length_write_chars s k). lia.
    + rewrite write_value_array. simpl in Hsize. simpl String.length.
      specialize (IHe xs (String "]" k)). simpl String.length in IHe. lia.
    + rewrite write_value_object. simpl in Hsize. simpl String.length.
      specialize (IHm props (String "}" k)). simpl String.length in IHm. lia.
  - intros [|x xs] k Hsize; [simpl; lia|].
    rewrite write_elements_cons. simpl in Hsize. simpl list_sum.
    pose proof (IHv x (match xs with [] => k | _ => String "," (write_elements xs k) end)).
    destruct xs as [|y xs]; [simpl in *; lia|].
    specialize (IHe (y :: xs) k). simpl String.length in *. lia.
  - intros [|[key x] ps] k Hsize; [simpl; lia|].
    rewrite write_members_cons. simpl in Hsize. simpl list_sum.
    unfold write_string. simpl String.length.
    pose proof (length_write_chars key
      (String ":" (write_value x
         (match ps with [] => k | _ => String "," (write_members ps k) end)))) as Hkey.
    simpl String.length in Hkey.
    pose proof (IHv x (match ps with [] => k | _ => String "," (write_members ps k) end)).
    destruct ps as [|q ps]; [simpl in *; lia|].
    specialize (IHm (q :: ps) k). simpl String.length in *. lia.
Qed.

(** The reference reader recovers every plain value from its text. *)
Lemma read_write_json v : plain_json v = true → read_json (write_json v) = Some v.
Proof.
  intros Hplain. unfold read_json, write_json.
  destruct (read_write (S (String.length (write_value v "")))) as [Hv _].
  rewrite Hv; [done|done|].
  destruct (length_write (json_size v)) as [Hlen _].
  specialize (Hlen v "" (le_n _)). simpl in Hlen. lia.
Qed.

Lemma as_transcript_turns turns :
  as_transcript (JArr (map json_of_turn turns)) = Some turns.
Proof.
  simpl. induction turns as [|[sp tx] turns IH]; [done|].
  simpl in *. by rewrite IH.
Qed.

Lemma as_AnalysisResult_analysis result :
  as_AnalysisResult (json_of_analysis result) = Some result.
Proof.
  destruct result as [turns s a]. unfold as_AnalysisResult, json_of_analysis.
  simpl get_property. cbn [mbind option_bind]. rewrite as_transcript_turns. done.
Qed.

Lemma as_meetings_meetings meetings :
  as_meetings (JArr (map json_of_meeting meetings)) = Some meetings.
Proof.
  simpl. induction meetings as [|[i t ts a] meetings IH]; [done|].
  cbn [map mapM]. rewrite IH. unfold as_Meeting, json_of_meeting.
  simpl get_property. cbn [mbind option_bind as_string id title timestamp analysis].
  by rewrite as_AnalysisResult_analysis.
Qed.

Lemma plain_json_meetings meetings :
  plain_json (JArr (map json_of_meeting meetings)) = true.
Proof.
  simpl. induction meetings as [|m meetings IH]; [done|].
  cbn [map forallb]. rewrite IH, andb_true_r.
  assert (forallb plain_json (map json_of_turn (transcript (analysis m))) = true) as Hturns.
  { induction (transcript (analysis m)) as [|turn turns IHt]; [done|].
    cbn [map forallb]. rewrite IHt. by vm_compute. }
  unfold json_of_meeting, json_of_analysis.
  cbn [plain_json forallb snd]. rewrite Hturns. by vm_compute.
Qed.

(** On the reference platform the saved meetings are read back from the
    text written for them, and that text is not empty. *)
Lemma reference_parse_stringify meetings :
  @JSON_parse_meetings referencePlatform
    (@JSON_stringify_meetings referencePlatform meetings) = Some meetings.
Proof.
  simpl. rewrite read_write_json by apply plain_json_meetings.
  apply as_meetings_meetings.
Qed.

Lemma reference_stringify_truthy meetings :
  truthy_string (@JSON_stringify_meetings referencePlatform meetings) = true.
Proof. done. Qed.
End ReferenceRoundTrip.

(** ** Validation of the analysis response *)

Section Validation.
Context `{Platform}.

Lemma falsy_property_false payload field :
  falsy_property payload field = false ↔
  ∃ v, get_property payload field = Some v ∧ truthy v = true.
Proof.
  unfold falsy_property. destruct (get_property payload field) as [v|].
  - rewrite negb_false_iff. naive_solver.
  - naive_solver.
Qed.

Lemma validation_passes payload :
  falsy_property payload "transcript" || falsy_property payload "summary"
  || falsy_property payload "actionItems" = false
  ↔ requiredFieldsTruthy payload.
Proof.
  rewrite !orb_false_iff, !falsy_property_false. unfold requiredFieldsTruthy, requiredFields.
  split.
  - intros [[Ht Hs] Ha] field Hin.
    repeat (apply elem_of_cons in Hin as [->|Hin]; [done|]). by apply elem_of_nil in Hin.
  - intros Hall. split_and!; apply Hall; set_solver.
Qed.

Lemma analyzeMeetingAudio_throws response message :
  analyzeMeetingAudio response = Throw message → message = ANALYZE_FAILED.
Proof.
  unfold analyzeMeetingAudio, catch_rethrow.
  destruct (analyze_body response); [done|]. by intros [= <-].
Qed.

Lemma analyzeMeetingAudio_returns (response : remote_response) (payload : json) :
  analyzeMeetingAudio response = Return payload ↔
  ∃ responseText,
    response = Resolved (Some responseText)
    ∧ responseText ≠ ""
    ∧ JSON_parse responseText = Some payload
    ∧ requiredFieldsTruthy payload.
Proof.
  unfold analyzeMeetingAudio, analyze_body, catch_rethrow, truthy_string. split.
  - destruct response as [|[responseText|]]; try done.
    destruct (String.eqb_spec responseText ""); [done|]. simpl.
    destruct (JSON_parse responseText) as [parsed|] eqn:Hparse; [|done].
    destruct (_ || _ || _) eqn:Hfields in |- *.
    { by destruct parsed. }
    intros Hret. exists responseText. split_and!; try done.
    + destruct parsed; by simplify_eq.
    + apply validation_passes. destruct parsed; by simplify_eq.
  - intros (responseText & -> & Hne & Hparse & Hfields).
    apply String.eqb_neq in Hne as ->. simpl. rewrite Hparse.
    pose proof Hfields as Hpasses. apply validation_passes in Hpasses as ->.
    destruct payload; try done.
    destruct (Hfields "summary") as (v & Hv & _);
      [unfold requiredFields; set_solver|done].
Qed.

Lemma analyzeMeetingAudio_refuses (responseText : string) (payload : json) (field : string) :
  JSON_parse responseText = Some payload →
  field ∈ requiredFields →
  falsy_property payload field = true →
  analyzeMeetingAudio (Resolved (Some responseText)) = Throw ANALYZE_FAILED.
Proof.
  intros Hparse Hin Hfalsy.
  destruct (analyzeMeetingAudio (Resolved (Some responseText))) as [returned|message] eqn:Hrun.
  - apply analyzeMeetingAudio_returns in Hrun
      as (responseText' & [= <-] & _ & Hparse' & Hfields).
    rewrite Hparse in Hparse'. injection Hparse' as <-.
    apply (proj2 (falsy_property_false payload field)) in Hfields; [congruence|done].
  - by rewrite (analyzeMeetingAudio_throws _ _ Hrun).
Qed.

(** C1, as the code has it. [analyzeMeetingAudio] returns a payload
    exactly when the response text is not empty, parses to that payload,
    and the payload has a truthy [transcript], [summary] and
    [actionItems]; the payload is returned whole. A payload in which one
    of the three is absent, [null] or otherwise falsy is refused, and
    every failure is an error with the one message. The shape of the
    transcript is not looked at. *)
Theorem analyzeMeetingAudio_validates (response : remote_response) :
  (∀ payload,
     analyzeMeetingAudio response = Return payload ↔
     ∃ responseText,
       response = Resolved (Some responseText)
       ∧ responseText ≠ ""
       ∧ JSON_parse responseText = Some payload
       ∧ requiredFieldsTruthy payload)
  ∧ (∀ responseText payload field,
       response = Resolved (Some responseText) →
       JSON_parse responseText = Some payload →
       field ∈ requiredFields →
       match get_property payload field with
       | None | Some JNull => True
       | Some v => truthy v = false
       end →
       analyzeMeetingAudio response = Throw ANALYZE_FAILED)
  ∧ (∀ message, analyzeMeetingAudio response = Throw message → message = ANALYZE_FAILED).
Proof.
  split_and!; [apply analyzeMeetingAudio_returns| |apply analyzeMeetingAudio_throws].
  intros responseText payload field -> Hparse Hin Hmissing.
  apply (analyzeMeetingAudio_refuses responseText payload field); try done.
  unfold falsy_property. destruct (get_property payload field) as [v|]; [|done].
  destruct v; try done; by rewrite Hmissing.
Qed.

(** C10. A response in which a required field is the empty string is
    refused like one in which the field is missing, though the field is
    present and not [null]. *)
Theorem analyzeMeetingAudio_rejects_empty_string
    (responseText : string) (payload : json) (field : string) :
  JSON_parse responseText = Some payload →
  field ∈ requiredFields →
  get_property payload field = Some (JStr "") →
  analyzeMeetingAudio (Resolved (Some responseText)) = Throw ANALYZE_FAILED.
Proof.
  intros Hparse Hin Hempty.
  apply (analyzeMeetingAudio_refuses responseText payload field); try done.
  unfold falsy_property. by rewrite Hempty.
Qed.
End Validation.

(** ** Loading and persisting the saved meetings *)

Section Persistence.
Context `{Platform}.

(** C9. When the storage holds the text the application wrote for some
    saved meetings, mounting the application, which loads that text and
    then persists what it loaded, leaves the storage as it was: the same
    text under the same key, and every other item untouched. *)
Theorem save_after_load (ls : Storage) (meetings : list Meeting) :
  (∀ ms, JSON_parse_meetings (JSON_stringify_meetings ms) = Some ms) →
  (∀ ms, truthy_string (JSON_stringify_meetings ms) = true) →
  readable ls = true →
  writable ls = true →
  items ls !! STORAGE_KEY = Some (JSON_stringify_meetings meetings) →
  localStorage (mount ls) = ls
  ∧ items (localStorage (mount ls)) !! STORAGE_KEY
    = Some (JSON_stringify_meetings meetings)
  ∧ savedMeetings (ui (mount ls)) = meetings
  ∧ error (ui (mount ls)) = None.
Proof.
  intros Hparse Htruthy Hread Hwrite Hstored.
  assert (mount ls
          = mkWorld (setSavedMeetings meetings initialState)
              (setItem STORAGE_KEY (JSON_stringify_meetings meetings)
                 (setItem STORAGE_KEY (JSON_stringify_meetings []) ls))) as ->.
  { unfold mount, load_sets_meetings, load_effect, persist_effect.
    rewrite Hread, Hstored, Htruthy, Hparse. simpl. rewrite Hwrite.
    simpl. by rewrite Hwrite. }
  assert (setItem STORAGE_KEY (JSON_stringify_meetings meetings)
            (setItem STORAGE_KEY (JSON_stringify_meetings []) ls) = ls) as ->.
  { destruct ls as [its r wr]. unfold setItem. simpl in *. f_equal.
    rewrite insert_insert_eq. by apply insert_id. }
  by split_and!.
Qed.

(** A stored text that parses is replaced by the text of what it parsed
    to. *)
Lemma mount_rewrites (ls : Storage) (stored : string) (meetings : list Meeting) :
  readable ls = true →
  writable ls = true →
  items ls !! STORAGE_KEY = Some stored →
  truthy_string stored = true →
  JSON_parse_meetings stored = Some meetings →
  items (localStorage (mount ls))
  = <[STORAGE_KEY := JSON_stringify_meetings meetings]> (items ls)
  ∧ savedMeetings (ui (mount ls)) = meetings.
Proof.
  intros Hread Hwrite Hstored Htruthy Hparse.
  unfold mount, load_sets_meetings, load_effect, persist_effect.
  rewrite Hread, Hstored, Htruthy, Hparse. simpl. rewrite Hwrite.
  simpl. rewrite Hwrite. simpl. by rewrite insert_insert_eq.
Qed.

(** X1. A stored text that does not parse is lost on mounting: the text of
    the empty collection is written over it, no meetings are shown, and
    the error says that the saved meetings could not be loaded. *)
Lemma mount_overwrites (ls : Storage) (stored : string) :
  readable ls = true →
  writable ls = true →
  items ls !! STORAGE_KEY = Some stored →
  JSON_parse_meetings stored = None →
  items (localStorage (mount ls)) = <[STORAGE_KEY := JSON_stringify_meetings []]> (items ls)
  ∧ savedMeetings (ui (mount ls)) = []
  ∧ (truthy_string stored = true →
     error (ui (mount ls)) = Some "Could not load saved meetings.").
Proof.
  intros Hread Hwrite Hstored Hparse.
  unfold mount, load_sets_meetings, load_effect, persist_effect.
  rewrite Hread, Hstored, Hparse. simpl.
  destruct (truthy_string stored); simpl; rewrite Hwrite; by simpl.
Qed.
End Persistence.

(** ** The inline editors *)

Section Editors.
Context `{Platform}.

Lemma reachable_run es w : reachable w → runnable es w = true → reachable (run es w).
Proof.
  revert w. induction es as [|e es IH]; intros w Hreach Hrun; simpl in *; [done|].
  apply andb_prop in Hrun as [Hen Hrest]. apply bool_decide_eq_true in Hen.
  apply IH; [by constructor|done].
Qed.

End Editors.

(** ** Runs on the reference platform *)

Section Runs.
Lemma reachable_referenceRun es ls :
  @runnable referencePlatform es (@mount referencePlatform ls) = true →
  @reachable referencePlatform (referenceRun es ls).
Proof. intros Hrun. apply reachable_run; [constructor|done]. Qed.

(** C1 fails as stated: a response whose transcript holds a turn without
    text is returned, not refused. *)
Lemma analyze_returns_malformed_transcript :
  read_json (write_json turnWithoutText) = Some turnWithoutText
  ∧ @analyzeMeetingAudio referencePlatform (Resolved (Some (write_json turnWithoutText)))
    = Return turnWithoutText
  ∧ get_property turnWithoutText "transcript" ≫= as_transcript = None
  ∧ as_AnalysisResult turnWithoutText = None.
Proof. by vm_compute. Qed.


(** C6 at the speaker whose identifier is the empty string: the editor
    is open on it and holds a name, and committing drops the name. *)
Theorem speaker_name_lost_for_empty_identifier :
  let w := referenceRun
             (toResultPane unnamedResponse ++ [EditSpeaker ""; ChangeTempSpeakerName "Alice"])
             emptyStorage in
  let w' := @step referencePlatform SaveSpeakerName w in
  @reachable referencePlatform w
  ∧ @enabled referencePlatform (ui w) SaveSpeakerName
  ∧ uniqueSpeakers (ui w) = [""]
  ∧ editingSpeaker (ui w) = Some ""
  ∧ trim (tempSpeakerName (ui w)) = "Alice"
  ∧ speakerNameMap (ui w') !! "" = Some ""
  ∧ editingSpeaker (ui w') = None.
Proof.
  split; [apply reachable_referenceRun; by vm_compute|].
  split; [apply (bool_decide_unpack _); by vm_compute|]. by vm_compute.
Qed.

Lemma analyzeMeetingAudio_rejects_empty_string_witness :
  (∀ field, field ∈ requiredFields →
     ∃ v, get_property emptySummary field = Some v ∧ v ≠ JNull)
  ∧ get_property emptySummary "summary" = Some (JStr "")
  ∧ @analyzeMeetingAudio referencePlatform (Resolved (Some (write_json emptySummary)))
    = Throw ANALYZE_FAILED.
Proof.
  split.
  { intros field Hin. unfold requiredFields in Hin.
    repeat (apply elem_of_cons in Hin as [->|Hin]; [by eexists|]).
    by apply elem_of_nil in Hin. }
  split; [reflexivity|].
  apply (@analyzeMeetingAudio_rejects_empty_string referencePlatform
           (write_json emptySummary) emptySummary "summary").
  - by vm_compute.
  - unfold requiredFields. set_solver.
  - reflexivity.
Defined.

Lemma contextBlocks_chronological_witness :
  @validTimestamps referencePlatform [march; january]
  ∧ @contextBlocks referencePlatform [march; january]
    = [@formatMeeting referencePlatform january; @formatMeeting referencePlatform march]
  ∧ StronglySorted (@chronological referencePlatform)
      (Array_sort (@by_timestamp referencePlatform) [march; january])
  ∧ @formattedContext referencePlatform [march; january]
    = @formatMeeting referencePlatform january ++ LF ++ LF
      ++ @formatMeeting referencePlatform march.
Proof.
  assert (@validTimestamps referencePlatform [march; january]) as Hvalid.
  { intros m Hm.
    apply elem_of_cons in Hm as [->|Hm]; [by eexists|].
    apply list_elem_of_singleton in Hm as ->. by eexists. }
  destruct (@contextBlocks_chronological referencePlatform [march; january] Hvalid)
    as (Hblocks & _ & Hsorted & Hexample).
  split; [exact Hvalid|]. split; [by rewrite Hblocks|]. split; [exact Hsorted|].
  by apply (Hexample january march 1704099600000 1709283600000).
Defined.


Lemma handleSaveTranscript_frame_witness :
  let s := handleEditTranscript 1 "  Hello, all.  "
             (processAudio_success standupAnalysis initialState) in
  editingTranscript s = Some (1%nat, "  Hello, all.  ")
  ∧ analysisResult s = Some standupAnalysis
  ∧ analysisResult (handleSaveTranscript s)
    = Some (mkAnalysis
              [mkTurn "Speaker 2" "Good morning."; mkTurn "Speaker 1" "Hello, all.";
               mkTurn "Speaker 2" "Shall we start?"]
              "* Greetings" "* Start the meeting").
Proof.
  intros s. split; [reflexivity|]. split; [reflexivity|].
  destruct (handleSaveTranscript_frame s 1 "  Hello, all.  " standupAnalysis
              eq_refl eq_refl) as (result' & Hres' & _).
  rewrite Hres'. vm_compute in Hres'. by injection Hres' as <-.
Defined.

Lemma delete_transition_witness :
  let w := referenceRun [SetView qa; ToggleMeetingSelection "id-march";
                         ToggleMeetingSelection "id-january"]
             (storageWith [january; march]) in
  let w' := @step referencePlatform (DeleteMeeting true "id-march") w in
  @reachable referencePlatform w
  ∧ @enabled referencePlatform (ui w) (DeleteMeeting true "id-march")
  ∧ savedMeetings (ui w) = [march; january]
  ∧ savedMeetings (ui w') = [january]
  ∧ selectedMeetingIds (ui w') = {[ "id-january" ]}
  ∧ items (localStorage w') !! STORAGE_KEY
    = Some (@JSON_stringify_meetings referencePlatform [january]).
Proof.
  intros w w'.
  assert (@reachable referencePlatform w) as Hreach
    by (apply reachable_referenceRun; by vm_compute).
  assert (@enabled referencePlatform (ui w) (DeleteMeeting true "id-march")) as Hen
    by (apply (bool_decide_unpack _); by vm_compute).
  destruct (@delete_transition referencePlatform w "id-march" Hreach Hen)
    as (_ & _ & _ & _ & Hsel & _).
  split; [exact Hreach|]. split; [exact Hen|]. split; [by vm_compute|].
  split; [by vm_compute|]. split; [|by vm_compute].
  subst w'. rewrite Hsel. by vm_compute.
Defined.

Lemma save_after_load_witness :
  let ls := storageWith [january; march] in
  readable ls = true
  ∧ writable ls = true
  ∧ items ls !! STORAGE_KEY
    = Some (@JSON_stringify_meetings referencePlatform [january; march])
  ∧ localStorage (@mount referencePlatform ls) = ls
  ∧ savedMeetings (ui (@mount referencePlatform ls)) = [january; march].
Proof.
  intros ls. split; [reflexivity|]. split; [reflexivity|]. split; [reflexivity|].
  destruct (@save_after_load referencePlatform ls [january; march]
              reference_parse_stringify reference_stringify_truthy
              eq_refl eq_refl eq_refl) as (Hstorage & _ & Hsaved & _).
  by split.
Defined.
End Runs.

(** * More of the component *)

(** ** Editing cycles *)

Section Cycles.
(** X2. Opening a section, typing and committing: the section becomes the
    trimmed text, also when that is empty; the transcript, the other
    section and the name map stay, and the editor is closed. Committing
    without typing trims the section itself. *)
Theorem section_edit_cycle (s : State) (result : AnalysisResult) (value : string) :
  analysisResult s = Some result →
  (let s' := handleSaveSection (setTempSummary value (handleEditSection summarySection s)) in
   analysisResult s'
   = Some (mkAnalysis (transcript result) (trim value) (actionItems result))
   ∧ editingSection s' = None
   ∧ speakerNameMap s' = speakerNameMap s)
  ∧ (let s' := handleSaveSection
                 (setTempActionItems value (handleEditSection actionItemsSection s)) in
     analysisResult s'
     = Some (mkAnalysis (transcript result) (summary result) (trim value))
     ∧ editingSection s' = None
     ∧ speakerNameMap s' = speakerNameMap s)
  ∧ analysisResult (handleSaveSection (handleEditSection summarySection s))
    = Some (mkAnalysis (transcript result) (trim (summary result)) (actionItems result))
  ∧ analysisResult (handleSaveSection (handleEditSection actionItemsSection s))
    = Some (mkAnalysis (transcript result) (summary result) (trim (actionItems result))).
Proof.
  intros Hres. unfold handleSaveSection, handleEditSection. rewrite Hres. simpl.
  rewrite Hres. by split_and!.
Qed.

Lemma displayName_insert (names : gmap string string) (k name raw : string) :
  name ≠ "" →
  displayName (<[k := name]> names) raw
  = if decide (raw = k) then name else displayName names raw.
Proof.
  intros Hname. unfold displayName. case_decide as Hraw.
  - subst raw. rewrite lookup_insert_eq. unfold truthy_string.
    by apply String.eqb_neq in Hname as ->.
  - by rewrite lookup_insert_ne.
Qed.

(** X3. Opening the editor of a speaker whose identifier is not empty, typing
    a name that is not blank and committing: wherever a turn of that
    speaker is shown, the trimmed name is shown; the name shown for every
    other speaker, the analysis and the list of speakers stay. *)
Theorem rename_cycle (s : State) (speakerId value : string) :
  speakerId ≠ "" →
  trim value ≠ "" →
  let s' := handleSaveSpeakerName (setTempSpeakerName value (handleEditSpeaker speakerId s)) in
  (∀ raw, displayName (speakerNameMap s') raw
          = if decide (raw = speakerId) then trim value
            else displayName (speakerNameMap s) raw)
  ∧ analysisResult s' = analysisResult s
  ∧ uniqueSpeakers s' = uniqueSpeakers s
  ∧ editingSpeaker s' = None
  ∧ tempSpeakerName s' = "".
Proof.
  intros Hid Hvalue. unfold handleSaveSpeakerName, handleEditSpeaker. simpl.
  unfold truthy_string.
  apply String.eqb_neq in Hid as ->. pose proof Hvalue as Hne.
  apply String.eqb_neq in Hne as ->. simpl.
  split_and!; try done. intros raw. by apply displayName_insert.
Qed.

(** X4. Cancelling an editor after typing into it commits nothing: the name
    map and the analysis are as before the editor was opened, and the
    editor is closed. *)
Theorem cancel_commits_nothing (s : State) (value : string) :
  (∀ speakerId,
     let s' := handleCancelSpeakerEdit
                 (setTempSpeakerName value (handleEditSpeaker speakerId s)) in
     speakerNameMap s' = speakerNameMap s
     ∧ analysisResult s' = analysisResult s
     ∧ editingSpeaker s' = None)
  ∧ (∀ index currentText,
       let s' := handleCancelTranscriptEdit
                   (setEditingTranscript (Some (index, value))
                      (handleEditTranscript index currentText s)) in
       speakerNameMap s' = speakerNameMap s
       ∧ analysisResult s' = analysisResult s
       ∧ editingTranscript s' = None)
  ∧ (∀ section,
       let s' := handleCancelSectionEdit
                   (setTempActionItems value
                      (setTempSummary value (handleEditSection section s))) in
       speakerNameMap s' = speakerNameMap s
       ∧ analysisResult s' = analysisResult s
       ∧ editingSection s' = None).
Proof.
  split_and!; try done.
  intros section. unfold handleEditSection.
  destruct (analysisResult s) eqn:Hres; [by destruct section|]. by simpl.
Qed.

(** X5. Committing the edit of a turn whose index is past the end of the
    transcript changes no turn: the analysis is as it was and the editor
    is closed. *)
Theorem handleSaveTranscript_past_end (s : State) (i : nat) (value : string)
    (result : AnalysisResult) :
  editingTranscript s = Some (i, value) →
  analysisResult s = Some result →
  (length (transcript result) ≤ i)%nat →
  analysisResult (handleSaveTranscript s) = Some result
  ∧ editingTranscript (handleSaveTranscript s) = None.
Proof.
  intros Hed Hres Hlen. unfold handleSaveTranscript. rewrite Hed, Hres. simpl.
  split; [|done]. destruct result as [turns sm ai]. simpl in *. do 2 f_equal.
  apply list_eq. intros j. rewrite updatedTranscript_lookup. simpl.
  destruct (turns !! j) as [turn|] eqn:Hj; [|done]. simpl.
  apply lookup_lt_Some in Hj.
  by assert (Nat.eqb j i = false) as -> by (apply Nat.eqb_neq; lia).
Qed.
End Cycles.

(** ** Selecting files and meetings *)

Section Selecting.
(** X6. Toggling a meeting flips whether it is selected and nothing else;
    toggling it again gives the selection back. *)
Theorem toggle_selection (s : State) (meetingId : string) :
  let s' := handleToggleMeetingSelection meetingId s in
  (meetingId ∈ selectedMeetingIds s' ↔ meetingId ∉ selectedMeetingIds s)
  ∧ (∀ other, other ≠ meetingId →
       (other ∈ selectedMeetingIds s' ↔ other ∈ selectedMeetingIds s))
  ∧ selectedMeetingIds (handleToggleMeetingSelection meetingId s') = selectedMeetingIds s
  ∧ savedMeetings s' = savedMeetings s.
Proof.
  unfold handleToggleMeetingSelection. simpl.
  destruct (decide (meetingId ∈ selectedMeetingIds s)) as [Hin|Hout].
  - rewrite decide_False by set_solver. split_and!; [set_solver|set_solver| |done].
    apply set_eq. intros x. destruct (decide (x = meetingId)); set_solver.
  - rewrite decide_True by set_solver. split_and!; [set_solver|set_solver| |done].
    apply set_eq. intros x. destruct (decide (x = meetingId)); set_solver.
Qed.

(** X7. A file chosen in the picker becomes the audio file whatever its type;
    a dropped file does only when its type starts with [audio/], and
    otherwise the file chosen before stays and an error is shown. Either
    way the drop ends the dragging state. *)
Theorem file_selection (s : State) (file : File) :
  audioFile (handleFileChange (Some file) s) = Some file
  ∧ error (handleFileChange (Some file) s) = None
  ∧ handleFileChange None s = s
  ∧ (String.prefix "audio/" (type_ file) = true →
     audioFile (handleDrop (Some file) s) = Some file
     ∧ error (handleDrop (Some file) s) = None)
  ∧ (String.prefix "audio/" (type_ file) = false →
     audioFile (handleDrop (Some file) s) = audioFile s
     ∧ error (handleDrop (Some file) s) = Some "Please drop a valid audio file.")
  ∧ audioFile (handleDrop None s) = audioFile s
  ∧ error (handleDrop None s) = Some "Please drop a valid audio file."
  ∧ isDragging (handleDrop (Some file) s) = false
  ∧ isDragging (handleDrop None s) = false.
Proof.
  unfold handleDrop. split_and!; try done.
  - by intros ->.
  - by intros ->.
  - by destruct (String.prefix _ _).
Qed.
End Selecting.

(** ** Titles and transcripts of saved meetings *)

Section Saved.
Lemma extension_tail_true ext : extension_tail ext = true → ext ≠ "" ∧ plain ext.
Proof.
  induction ext as [|c r IH]; [done|]. simpl. intros [Hc Hr]%andb_prop.
  split; [done|]. apply negb_true_iff, orb_false_iff in Hc as [Hslash Hdot].
  apply Ascii.eqb_neq in Hslash, Hdot.
  intros x Hx. simpl in Hx. apply elem_of_cons in Hx as [->|Hx]; [done|].
  destruct r as [|c' r']; [by apply elem_of_nil in Hx|]. by apply IH.
Qed.

(** X8. What [removeExtension] removes is nothing, or a final dot followed by
    one or more characters none of which is a dot or a slash: so a name
    without a dot is the title as it is, and so is a name that ends in a
    dot. *)
Theorem removeExtension_removes (fileName : string) :
  (∃ removed,
     fileName = removeExtension fileName ++ removed
     ∧ (removed = "" ∨ ∃ ext, removed = String "." ext ∧ ext ≠ "" ∧ plain ext))
  ∧ ("."%char ∉ list_ascii_of_string fileName → removeExtension fileName = fileName)
  ∧ removeExtension (fileName ++ ".") = fileName ++ ".".
Proof.
  split_and!.
  - induction fileName as [|c r (removed & Heq & Hremoved)]; simpl.
    + exists "". by split; [|left].
    + destruct (Ascii.eqb_spec c ".") as [->|Hc]; simpl.
      * destruct (extension_tail r) eqn:Htail.
        -- exists (String "." r). split; [done|]. right. exists r.
           by destruct (extension_tail_true r Htail).
        -- exists removed. split; [exact (f_equal (String ".") Heq)|done].
      * exists removed. split; [exact (f_equal (String c) Heq)|done].
  - induction fileName as [|c r IH]; simpl; [done|]. intros Hdot.
    destruct (Ascii.eqb_spec c ".") as [->|Hc]; [set_solver|]. simpl.
    rewrite IH; [done|set_solver].
  - induction fileName as [|c r IH]; simpl; [done|]. rewrite IH.
    destruct (Ascii.eqb_spec c "."); [|done]. simpl.
    by rewrite extension_tail_dot.
Qed.

Lemma displayName_nonempty names raw : raw ≠ "" → displayName names raw ≠ "".
Proof.
  intros Hraw. unfold displayName, truthy_string.
  destruct (names !! raw) as [mapped|]; [|done].
  by destruct (String.eqb_spec mapped "").
Qed.

(** X9. Folding the name map onto a transcript keeps the number of turns,
    their order and their text, gives each turn the display name of its
    speaker, and never gives an empty name to a turn whose speaker is not
    empty, whatever the map holds. *)
Theorem finalTranscript_keeps (names : gmap string string) (turns : list SpeakerTurn) :
  length (finalTranscript names turns) = length turns
  ∧ map text (finalTranscript names turns) = map text turns
  ∧ map speaker (finalTranscript names turns)
    = map (λ turn, displayName names (speaker turn)) turns
  ∧ (∀ turn, turn ∈ finalTranscript names turns →
       speaker turn = "" →
       ∃ original, original ∈ turns ∧ speaker original = "" ∧ text original = text turn).
Proof.
  unfold finalTranscript. split_and!.
  - apply length_map.
  - rewrite map_map. by apply map_ext.
  - rewrite map_map. by apply map_ext.
  - intros turn (original & -> & Hin)%list_elem_of_fmap Hempty. simpl in *.
    exists original. split_and!; try done.
    destruct (decide (speaker original = "")) as [|Hne]; [done|].
    by destruct (displayName_nonempty names _ Hne).
Qed.
End Saved.

(** ** Colours and data URLs *)

Section Rendering.
Lemma forEach_set_other speakers index speakerMap k :
  k ∉ speakers → forEach_set speakers index speakerMap !! k = speakerMap !! k.
Proof.
  revert index speakerMap.
  induction speakers as [|speaker rest IH]; intros index speakerMap Hk; [done|].
  cbn [forEach_set]. rewrite IH by set_solver. apply lookup_insert_ne. set_solver.
Qed.

Lemma forEach_set_listed speakers index speakerMap i k :
  NoDup speakers →
  speakers !! i = Some k →
  forEach_set speakers index speakerMap !! k
  = Some (colors !!! ((index + i) mod length colors)%nat).
Proof.
  revert index speakerMap i.
  induction speakers as [|speaker rest IH]; intros index speakerMap i Hnd Hi; [done|].
  apply NoDup_cons in Hnd as [Hfresh Hnd]. cbn [forEach_set].
  destruct i as [|i]; simpl in Hi.
  - injection Hi as ->. rewrite forEach_set_other by done.
    by rewrite lookup_insert_eq, Nat.add_0_r.
  - rewrite (IH _ _ i) by done. by rewrite Nat.add_succ_r.
Qed.

Lemma speakerColors_listed speakers i k :
  NoDup speakers →
  speakers !! i = Some k →
  speakerColors speakers !! k = Some (colors !!! (i mod 6)%nat).
Proof. intros Hnd Hi. unfold speakerColors. by rewrite (forEach_set_listed _ _ _ i). Qed.

Lemma turnColor_listed speakers turn :
  NoDup speakers → speaker turn ∈ speakers → turnColor speakers turn ∈ colors.
Proof.
  intros Hnd (i & Hi)%list_elem_of_lookup. unfold turnColor.
  rewrite (speakerColors_listed _ _ _ Hnd Hi).
  assert (i mod 6 < 6)%nat as Hlt by (apply Nat.mod_upper_bound; lia).
  destruct (i mod 6)%nat as [|[|[|[|[|[|n]]]]]]; simpl; try lia; set_solver.
Qed.

(** X10. Each listed speaker gets the colour at its position in the palette,
    counted round: the seventh speaker has the colour of the first. A
    speaker that is not listed has no colour, and its turns are drawn on
    the fallback background. *)
Theorem speakerColors_palette (speakers : list string) :
  NoDup speakers →
  (∀ i k, speakers !! i = Some k →
     speakerColors speakers !! k = Some (colors !!! (i mod 6)%nat)
     ∧ ∀ k', speakers !! (i + 6)%nat = Some k' →
         speakerColors speakers !! k' = speakerColors speakers !! k)
  ∧ (∀ turn, speaker turn ∉ speakers → turnColor speakers turn = "bg-gray-800/50")
  ∧ (∀ turn, speaker turn ∈ speakers → turnColor speakers turn ∈ colors).
Proof.
  intros Hnd. split_and!.
  - intros i k Hi. split; [by apply speakerColors_listed|]. intros k' Hi'.
    rewrite (speakerColors_listed _ _ _ Hnd Hi), (speakerColors_listed _ _ _ Hnd Hi').
    do 2 f_equal. by rewrite <- (Nat.Div0.add_mod_idemp_r i 6 6), Nat.add_0_r.
  - intros turn Hout. unfold turnColor, speakerColors.
    by rewrite forEach_set_other, lookup_empty.
  - intros turn. by apply turnColor_listed.
Qed.

Lemma split_comma_free s : comma_free s → split_comma s = [s].
Proof.
  induction s as [|c r IH]; [done|]. unfold comma_free. simpl.
  intros [Hc Hr]%Forall_cons. apply Ascii.eqb_neq in Hc as ->. by rewrite IH.
Qed.

Lemma split_comma_at head rest :
  comma_free head → split_comma (head ++ String "," rest) = head :: split_comma rest.
Proof.
  induction head as [|c r IH]; [done|]. unfold comma_free. simpl.
  intros [Hc Hr]%Forall_cons. apply Ascii.eqb_neq in Hc as ->. by rewrite IH.
Qed.

(** X11. [fileToBase64] resolves to what stands between the first comma of the
    data URL and the next one, which is the whole payload when the
    payload has no comma, as base64 has none; a result without a comma
    resolves to [undefined]. *)
Theorem fileToBase64_payload (header payload : string) :
  comma_free header →
  comma_free payload →
  fileToBase64_onload (header ++ String "," payload) = Some payload
  ∧ (∀ rest, fileToBase64_onload (header ++ String "," (payload ++ String "," rest))
             = Some payload)
  ∧ fileToBase64_onload header = None.
Proof.
  intros Hheader Hpayload. unfold fileToBase64_onload. split_and!.
  - by rewrite split_comma_at, split_comma_free.
  - intros rest. by rewrite !split_comma_at.
  - by rewrite split_comma_free.
Qed.
End Rendering.

(** ** The analysis, the speakers and the name map hang together *)

Section Coherence.
Context `{Platform}.

Lemma coherent_frame (s s' : State) :
  appState s' = appState s →
  analysisResult s' = analysisResult s →
  speakerNameMap s' = speakerNameMap s →
  uniqueSpeakers s' = uniqueSpeakers s →
  coherent s → coherent s'.
Proof. intros Ha Hr Hn Hu [C1 C2 C3 C4]. split; by rewrite ?Ha, ?Hr, ?Hn, ?Hu. Qed.

Ltac keep :=
  first [ eassumption
        | eapply coherent_frame; [| | | |eassumption]; (reflexivity || done) ].

Lemma coherent_initial : coherent initialState.
Proof.
  split; simpl.
  - split; [by intros [? ?]|done].
  - intros k. rewrite lookup_empty. split; [by intros [? ?]|by intros ?%elem_of_nil].
  - constructor.
  - done.
Qed.

Lemma coherent_reset s : coherent (handleResetAnalysis s).
Proof.
  split; simpl.
  - split; [by intros [? ?]|done].
  - intros k. rewrite lookup_empty. split; [by intros [? ?]|by intros ?%elem_of_nil].
  - constructor.
  - done.
Qed.

Lemma coherent_success result s : coherent (processAudio_success result s).
Proof.
  split; simpl.
  - split; [done|by eexists].
  - intros k. rewrite initialMap_lookup. case_decide; [by split; [|eexists]|].
    split; [by intros [? ?]|done].
  - apply discoverSpeakers_sorted.
  - intros result' turn [= <-] Hturn. apply discoverSpeakers_elem_of.
    by apply list_elem_of_fmap_2.
Qed.

Lemma coherent_loading_no_result s :
  coherent s → appState s ≠ SUCCESS → analysisResult s = None.
Proof.
  intros [C1 _ _ _] Hstate. destruct (analysisResult s) eqn:Hres; [|done].
  destruct Hstate. apply C1. by eexists.
Qed.

Lemma coherent_handler e s :
  coherent s → enabled s e → coherent (handler e s).
Proof.
  intros Hcoh Hen. destruct e; simpl in *.
  - keep.
  - keep.
  - unfold handleFileChange. destruct file; keep.
  - keep.
  - keep.
  - keep.
  - unfold handleDrop. destruct file; [destruct (String.prefix _ _)|]; keep.
  - unfold processAudio_start. destruct (audioFile s); [|keep].
    destruct Hcoh as [C1 C2 C3 C4]. split; simpl; try done.
    all: split; [by intros [? ?]|done].
  - destruct Hen as [Hloading _].
    assert (∀ message, coherent (processAudio_failure message s)) as Hfail.
    { intros message. pose proof (coherent_loading_no_result s Hcoh) as Hnone.
      destruct Hcoh as [C1 C2 C3 C4]. split; simpl; try done.
      rewrite Hnone by (by rewrite Hloading). split; [by intros [? ?]|done]. }
    unfold processAudio_settle. destruct x; [done|].
    destruct (analyzeMeetingAudio response); [|done].
    destruct (as_AnalysisResult a); [apply coherent_success|done].
  - apply coherent_reset.
  - unfold handleSaveMeeting. repeat case_match; try done; apply coherent_reset.
  - keep.
  - keep.
  - destruct Hen as [_ Hlisted].
    unfold handleSaveSpeakerName. destruct (editingSpeaker s) as [k|]; [|keep].
    destruct (truthy_string k && truthy_string (trim (tempSpeakerName s))); [|keep].
    destruct Hcoh as [C1 C2 C3 C4]. split; simpl; try done.
    intros k'. destruct (decide (k = k')) as [<-|Hne].
    + rewrite lookup_insert_eq. split; [done|by eexists].
    + by rewrite lookup_insert_ne.
  - keep.
  - case_match; keep.
  - repeat case_match; keep.
  - unfold handleSaveTranscript.
    destruct (editingTranscript s) as [editing|]; [|done].
    destruct (analysisResult s) as [result|] eqn:Hres; [|done].
    destruct Hcoh as [C1 C2 C3 C4]. split; simpl; try done.
    + rewrite <- C1, Hres. split; by eexists.
    + intros result' turn [= <-] Hturn. simpl in Hturn.
      apply (list_elem_of_fmap_2 speaker) in Hturn.
      change (speaker turn ∈ map speaker (updatedTranscript editing (transcript result)))
        in Hturn.
      rewrite updatedTranscript_speakers in Hturn.
      apply list_elem_of_fmap in Hturn as (original & -> & Hin). by eapply C4.
  - keep.
  - unfold handleEditSection. repeat case_match; keep.
  - keep.
  - keep.
  - unfold handleSaveSection.
    destruct (analysisResult s) as [result|] eqn:Hres; [|done].
    destruct Hcoh as [C1 C2 C3 C4].
    destruct (editingSection s) as [[]|]; [| |by split];
      (split; simpl; try done;
       [rewrite <- C1, Hres; split; by eexists
       |intros result' turn [= <-] Hturn; by eapply C4]).
  - keep.
  - unfold handleToggleMeetingSelection. keep.
  - unfold handleDeleteMeeting. destruct confirmed; keep.
  - keep.
  - unfold handleAskQuestion_start. case_match; keep.
  - unfold handleAskQuestion_settle. case_match; keep.
Qed.

Lemma coherent_step e w :
  coherent (ui w) → enabled (ui w) e → coherent (ui (step e w)).
Proof.
  intros Hcoh Hen. pose proof (coherent_handler _ _ Hcoh Hen) as Hh.
  unfold step, persist_effect, render.
  repeat case_match; simpl; keep.
Qed.

Lemma reachable_coherent w : reachable w → coherent (ui w).
Proof.
  induction 1 as [ls|w e _ IH Hen]; [|by apply coherent_step].
  pose proof coherent_initial as Hinit.
  unfold mount, persist_effect, load_effect. simpl.
  repeat case_match; simpl; keep.
Qed.
End Coherence.

(** ** Running an analysis *)

Section Analysis.
Context `{Platform}.

(** X12. In every reachable state an analysis result is held exactly when the
    state of the analysis is [SUCCESS]: the two tests the result pane is
    rendered under are one. *)
Theorem result_iff_success (w : World) :
  reachable w →
  (is_Some (analysisResult (ui w)) ↔ appState (ui w) = SUCCESS)
  ∧ (analysisShown (ui w) ↔ view (ui w) = analyze ∧ appState (ui w) = SUCCESS).
Proof.
  intros Hreach. pose proof (coh_result _ (reachable_coherent _ Hreach)) as Hiff.
  split; [done|]. unfold analysisShown. rewrite Hiff. tauto.
Qed.

(** X13. In every reachable state the listed speakers are distinct and are
    exactly the keys of the name map, and every turn of the analysis on
    screen is of a listed speaker: so each turn has an entry in the name
    map and a colour of the palette. *)
Theorem turns_are_listed (w : World) :
  reachable w →
  NoDup (uniqueSpeakers (ui w))
  ∧ (∀ k, is_Some (speakerNameMap (ui w) !! k) ↔ k ∈ uniqueSpeakers (ui w))
  ∧ (∀ result turn,
       analysisResult (ui w) = Some result →
       turn ∈ transcript result →
       speaker turn ∈ uniqueSpeakers (ui w)
       ∧ is_Some (speakerNameMap (ui w) !! speaker turn)
       ∧ turnColor (uniqueSpeakers (ui w)) turn ∈ colors).
Proof.
  intros Hreach. destruct (reachable_coherent _ Hreach) as [C1 C2 C3 C4].
  pose proof (lexically_sorted_NoDup _ C3) as Hnd.
  split_and!; try done.
  intros result turn Hres Hturn. pose proof (C4 _ _ Hres Hturn) as Hlisted.
  split_and!; [done|by apply C2|].
  by apply turnColor_listed.
Qed.

(** X14. Whenever a button that starts an analysis can be pressed there is an
    audio file, so the analysis starts: the state becomes [LOADING], the
    error and the former result are cleared, the file is kept, and the
    message asking for a file is never shown. *)
Theorem processAudio_starts (w : World) :
  reachable w →
  enabled (ui w) ProcessAudio →
  let s' := ui (step ProcessAudio w) in
  is_Some (audioFile (ui w))
  ∧ appState s' = LOADING
  ∧ error s' = None
  ∧ analysisResult s' = None
  ∧ audioFile s' = audioFile (ui w)
  ∧ localStorage (step ProcessAudio w) = localStorage w.
Proof.
  intros Hreach Hen.
  assert (is_Some (audioFile (ui w))) as [file Hfile].
  { destruct Hen as [(_ & Hsuccess & _)|(_ & Hfile & _)]; [|done].
    apply (inv_audioFile _ (reachable_invariant _ Hreach)). by rewrite Hsuccess. }
  unfold step, render. simpl. unfold processAudio_start. rewrite Hfile. simpl.
  by destruct (view (ui w)).
Qed.

(** X15. An analysis that fails, because the file cannot be read or because
    [analyzeMeetingAudio] throws, ends in the state [ERROR] with no result
    on screen and the failure in the error message; the file is kept for
    another try and the storage is not written. *)
Theorem analysis_failure (w : World) (x : analysis_settlement) :
  reachable w →
  enabled (ui w) (AnalysisSettled x) →
  match x with
  | FileReadFailed => True
  | Responded response => ∃ message, analyzeMeetingAudio response = Throw message
  end →
  let s' := ui (step (AnalysisSettled x) w) in
  appState s' = ERROR
  ∧ analysisResult s' = None
  ∧ error s'
    = Some ("Failed to analyze audio. "
            ++ match x with
               | FileReadFailed => "An unknown error occurred."
               | Responded _ => ANALYZE_FAILED
               end)
  ∧ is_Some (audioFile s')
  ∧ savedMeetings s' ≡ₚ savedMeetings (ui w)
  ∧ localStorage (step (AnalysisSettled x) w) = localStorage w.
Proof.
  intros Hreach [Hloading _] Hfails.
  pose proof (reachable_coherent _ Hreach) as Hcoh.
  pose proof (coherent_loading_no_result _ Hcoh) as Hnone.
  rewrite Hloading in Hnone. specialize (Hnone ltac:(done)).
  assert (is_Some (audioFile (ui w))) as Hfile.
  { apply (inv_audioFile _ (reachable_invariant _ Hreach)). by rewrite Hloading. }
  assert (∃ message,
            handler (AnalysisSettled x) (ui w) = processAudio_failure message (ui w)
            ∧ message = match x with
                        | FileReadFailed => "An unknown error occurred."
                        | Responded _ => ANALYZE_FAILED
                        end) as (message & Hhandler & Hmessage).
  { simpl. unfold processAudio_settle. destruct x as [|response]; [by eexists|].
    destruct Hfails as [message Hthrow]. rewrite Hthrow. eexists. split; [done|].
    by eapply analyzeMeetingAudio_throws. }
  unfold step. rewrite Hhandler. unfold render. simpl. rewrite <- Hmessage.
  destruct (view (ui w)); simpl; split_and!; try done.
  by rewrite Array_sort_Permutation.
Qed.
End Analysis.

(** ** Asking a question *)

Section Asking.
Context `{Platform}.

Lemma trimStart_head s c r : trimStart s = String c r → is_white_space c = false.
Proof.
  induction s as [|c' r' IH]; [done|]. simpl.
  destruct (is_white_space c') eqn:Hc'; [done|]. by intros [= <- _].
Qed.

Lemma trimStart_blank s : trimStart s = "" ↔ blank s.
Proof.
  unfold blank. induction s as [|c r IH]; simpl; [by split; [constructor|]|].
  rewrite Forall_cons. destruct (is_white_space c); [|by split; [|intros []]].
  rewrite IH. tauto.
Qed.

Lemma trimEnd_head c r : is_white_space c = false → trimEnd (String c r) ≠ "".
Proof. intros Hc. simpl. rewrite Hc. by destruct (trimEnd r). Qed.

Lemma trim_blank s : trim s = "" ↔ blank s.
Proof.
  rewrite <- trimStart_blank. unfold trim. split; [|by intros ->].
  destruct (trimStart s) as [|c r] eqn:Hstart; [done|].
  intros Hend. by destruct (trimEnd_head c r (trimStart_head _ _ _ Hstart)).
Qed.

(** X16. A question made of white space only, or an empty selection, is
    refused with an error before anything is asked: the answering flag
    and the answer shown stay. Any other question starts the request:
    the error and the former answer are cleared and the flag is set. *)
Theorem handleAskQuestion_validates (s : State) :
  (blank (qaQuestion s) ∨ selectedMeetingIds s = ∅ →
   error (handleAskQuestion_start s)
   = Some "Please select at least one meeting and ask a question."
   ∧ isAnswering (handleAskQuestion_start s) = isAnswering s
   ∧ qaAnswer (handleAskQuestion_start s) = qaAnswer s)
  ∧ (¬ blank (qaQuestion s) → selectedMeetingIds s ≠ ∅ →
     error (handleAskQuestion_start s) = None
     ∧ isAnswering (handleAskQuestion_start s) = true
     ∧ qaAnswer (handleAskQuestion_start s) = None).
Proof.
  unfold handleAskQuestion_start, truthy_string. split.
  - intros Hrefused.
    assert (negb (negb (trim (qaQuestion s) =? "")%string)
            || bool_decide (size (selectedMeetingIds s) = 0%nat) = true) as ->; [|done].
    destruct Hrefused as [Hblank| ->].
    + apply trim_blank in Hblank as ->. done.
    + rewrite size_empty, bool_decide_eq_true_2 by done. apply orb_true_r.
  - intros Hquestion Hselection.
    assert (negb (negb (trim (qaQuestion s) =? "")%string)
            || bool_decide (size (selectedMeetingIds s) = 0%nat) = false) as ->; [|done].
    apply orb_false_iff. split.
    + rewrite negb_involutive. apply String.eqb_neq. by rewrite trim_blank.
    + apply bool_decide_eq_false. by intros ?%size_empty_inv%leibniz_equiv.
Qed.

Lemma answerQuestionFromMeetings_throws question meetings remote message :
  answerQuestionFromMeetings question meetings remote = Throw message →
  message = "Failed to get an answer from the AI.".
Proof.
  unfold answerQuestionFromMeetings, catch_rethrow.
  repeat case_match; try done; by intros [= <-].
Qed.

(** X17. [answerQuestionFromMeetings] returns the text of the model as it is,
    exactly when the call resolves to a text that is not empty; every
    other outcome is the one error. *)
Theorem answerQuestionFromMeetings_returns
    (question : string) (meetings : list Meeting) (remote : string → remote_response) :
  (∀ answer,
     answerQuestionFromMeetings question meetings remote = Return answer ↔
     remote (prompt question meetings) = Resolved (Some answer) ∧ answer ≠ "")
  ∧ (∀ message,
       answerQuestionFromMeetings question meetings remote = Throw message →
       message = "Failed to get an answer from the AI.").
Proof.
  split; [|apply answerQuestionFromMeetings_throws].
  intros answer. unfold answerQuestionFromMeetings, catch_rethrow, truthy_string.
  destruct (remote (prompt question meetings)) as [|[responseText|]].
  - by split; [|intros []].
  - destruct (String.eqb_spec responseText "") as [->|Hne]; simpl.
    + split; [done|]. by intros [[= <-] ?].
    + split; [by intros [= <-]|]. by intros [[= <-] _].
  - by split; [|intros []].
Qed.

(** X18. When the request settles the answering flag is cleared, whatever the
    outcome. A text that is not empty becomes the answer shown and the
    error stays; anything else leaves the answer and puts the failure in
    the error. The saved meetings and the storage are not touched. *)
Theorem answer_settles (w : World) (response : remote_response) :
  let s' := ui (step (AnswerSettled response) w) in
  isAnswering s' = false
  ∧ match response with
    | Resolved (Some answer) =>
        if truthy_string answer
        then qaAnswer s' = Some answer ∧ error s' = error (ui w)
        else qaAnswer s' = qaAnswer (ui w)
             ∧ error s' = Some "Failed to get answer. Failed to get an answer from the AI."
    | _ =>
        qaAnswer s' = qaAnswer (ui w)
        ∧ error s' = Some "Failed to get answer. Failed to get an answer from the AI."
    end
  ∧ savedMeetings s' ≡ₚ savedMeetings (ui w)
  ∧ localStorage (step (AnswerSettled response) w) = localStorage w.
Proof.
  unfold step, render. simpl.
  unfold handleAskQuestion_settle, answerQuestionFromMeetings, catch_rethrow.
  destruct response as [|[answer|]]; [| |];
    try destruct (truthy_string answer); simpl;
    destruct (view (ui w)); simpl; split_and!; try done;
    by rewrite Array_sort_Permutation.
Qed.

(** X19. The context of a question has one block for each saved meeting whose
    id is selected and none for any other; when the saved meetings have
    distinct ids, in a reachable state, that is one block for each
    selected id. *)
Theorem question_context (w : World) :
  reachable w →
  contextBlocks (selectedMeetings (ui w))
  ≡ₚ map formatMeeting
       (filter (λ m, id m ∈ selectedMeetingIds (ui w)) (savedMeetings (ui w)))
  ∧ (∀ m, m ∈ selectedMeetings (ui w) ↔
          m ∈ savedMeetings (ui w) ∧ id m ∈ selectedMeetingIds (ui w))
  ∧ (NoDup (map id (savedMeetings (ui w))) →
     length (contextBlocks (selectedMeetings (ui w))) = size (selectedMeetingIds (ui w))).
Proof.
  intros Hreach. unfold contextBlocks, selectedMeetings. split_and!.
  - by rewrite Array_sort_Permutation.
  - intros m. rewrite list_elem_of_filter. tauto.
  - intros Hnd. rewrite length_map, Array_sort_length.
    rewrite <- (length_map id).
    unfold size, set_size. simpl. apply Permutation_length, NoDup_Permutation.
    + clear Hreach. induction (savedMeetings (ui w)) as [|m ms IH]; [constructor|].
      simpl in Hnd. apply NoDup_cons in Hnd as [Hm Hnd].
      rewrite filter_cons. case_decide; [|by apply IH]. simpl.
      apply NoDup_cons. split; [|by apply IH].
      intros (m' & Hid & Hin)%list_elem_of_fmap.
      apply list_elem_of_filter in Hin as [_ Hin].
      apply Hm. rewrite Hid. by apply list_elem_of_fmap_2.
    + apply NoDup_elements.
    + intros i. rewrite elem_of_elements. split.
      * intros (m & -> & Hin)%list_elem_of_fmap.
        by apply list_elem_of_filter in Hin as [? _].
      * intros Hi.
        pose proof (inv_selection _ (reachable_invariant _ Hreach) i Hi) as Hsaved.
        apply list_elem_of_fmap in Hsaved as (m & -> & Hin).
        apply list_elem_of_fmap. exists m. split; [done|].
        by apply list_elem_of_filter.
Qed.
End Asking.

(** ** Orders of the saved meetings *)

Section Orders.
Context `{Platform}.

Lemma Array_sort_sorted_same {A} (cmp : A → A → Z) (xs : list A) :
  StronglySorted (λ x y, cmp x y ≤ 0) xs → Array_sort cmp xs = xs.
Proof.
  induction 1 as [|x xs Hsorted IH Hall]; [done|]. simpl. rewrite IH.
  destruct xs as [|y rest]; [done|]. simpl.
  apply Forall_cons in Hall as [Hxy _]. by apply Z.leb_le in Hxy as ->.
Qed.

Lemma by_timestamp_desc_agrees a b :
  is_Some (Date_getTime (timestamp a)) → is_Some (Date_getTime (timestamp b)) →
  agrees by_timestamp_desc newest_first a b
  ∧ (newest_first a b → by_timestamp_desc a b ≤ 0).
Proof.
  intros [ta Ha] [tb Hb].
  unfold agrees, by_timestamp_desc, by_timestamp, newest_first, chronological.
  rewrite Ha, Hb. lia.
Qed.

#[local] Instance newest_first_trans : Transitive newest_first.
Proof.
  intros a b c. unfold newest_first, chronological.
  destruct (Date_getTime (timestamp a)), (Date_getTime (timestamp b)),
    (Date_getTime (timestamp c)); try done. lia.
Qed.

(** X20. Rendering keeps the saved meetings and, in the Q&A view, reorders
    them: when the timestamps are valid dates they come out newest first,
    and rendering again changes nothing more. The Analyze view leaves the
    order alone. *)
Theorem render_newest_first (s : State) :
  savedMeetings (render s) ≡ₚ savedMeetings s
  ∧ (view s = analyze → render s = s)
  ∧ (view s = qa → validTimestamps (savedMeetings s) →
     StronglySorted newest_first (savedMeetings (render s))
     ∧ render (render s) = render s).
Proof.
  unfold render. split_and!.
  - destruct (view s); [done|]. simpl. apply Array_sort_Permutation.
  - by intros ->.
  - intros Hview Hvalid. rewrite Hview. simpl. rewrite Hview.
    assert (StronglySorted newest_first (Array_sort by_timestamp_desc (savedMeetings s)))
      as Hsorted.
    { apply Array_sort_sorted; [apply _|].
      intros a b Ha Hb. apply by_timestamp_desc_agrees; by apply Hvalid. }
    split; [done|].
    rewrite Array_sort_sorted_same; [done|].
    assert (Forall (λ m, is_Some (Date_getTime (timestamp m)))
              (Array_sort by_timestamp_desc (savedMeetings s))) as Hall.
    { apply Forall_forall. intros m Hm. apply Hvalid. by rewrite <- elem_of_Array_sort. }
    induction Hsorted as [|m ms Hs IH Hm]; [constructor|].
    apply Forall_cons in Hall as [Hvm Hall]. constructor; [by apply IH|].
    apply Forall_forall. intros m' Hm'. rewrite Forall_forall in Hm, Hall.
    apply by_timestamp_desc_agrees; auto.
Qed.

Lemma filter_valid_time (t : Z) (meetings : list Meeting) :
  validTimestamps meetings →
  filter (λ m, Date_getTime (timestamp m) = Some t) meetings
  = filter (λ m, default 0 (Date_getTime (timestamp m)) = t) meetings.
Proof.
  induction meetings as [|m ms IH]; intros Hvalid; [done|].
  rewrite !filter_cons, IH by (intros m' Hm'; apply Hvalid; set_solver).
  destruct (Hvalid m) as [tm Hm]; [set_solver|]. rewrite Hm. simpl.
  repeat case_decide; naive_solver.
Qed.

(** X21. Meetings of one and the same timestamp stand in the context of a
    question in the order they were passed in. *)
Theorem context_keeps_ties (meetings : list Meeting) (t : Z) :
  validTimestamps meetings →
  filter (λ m, Date_getTime (timestamp m) = Some t) (Array_sort by_timestamp meetings)
  = filter (λ m, Date_getTime (timestamp m) = Some t) meetings.
Proof.
  intros Hvalid.
  rewrite !filter_valid_time;
    [|done|intros m Hm; apply Hvalid; by rewrite <- elem_of_Array_sort].
  apply (Array_sort_stable _ eq). intros a b Ha Hb.
  destruct (Hvalid a Ha) as [ta Hta], (Hvalid b Hb) as [tb Htb].
  unfold by_timestamp. rewrite Hta, Htb. simpl. lia.
Qed.
End Orders.

(** ** What the storage holds *)

Section Stored.
Context `{Platform}.

(** X22. With nothing stored under the key, or the empty string, mounting
    shows no meetings and no error, and writes the text of the empty
    collection under the key. *)
Theorem mount_nothing_stored (ls : Storage) :
  readable ls = true →
  writable ls = true →
  items ls !! STORAGE_KEY = None ∨ items ls !! STORAGE_KEY = Some "" →
  savedMeetings (ui (mount ls)) = []
  ∧ error (ui (mount ls)) = None
  ∧ items (localStorage (mount ls)) = <[STORAGE_KEY := JSON_stringify_meetings []]> (items ls).
Proof.
  intros Hread Hwrite Hstored.
  unfold mount, load_sets_meetings, load_effect, persist_effect. rewrite Hread.
  destruct Hstored as [->| ->]; simpl; by rewrite Hwrite.
Qed.

Lemma writable_step e w : writable (localStorage (step e w)) = writable (localStorage w).
Proof. unfold step, persist_effect. by repeat case_match. Qed.

Lemma writable_mount ls : writable (localStorage (mount ls)) = writable ls.
Proof. unfold mount, persist_effect. simpl. by repeat case_match. Qed.

Lemma render_Permutation s : savedMeetings (render s) ≡ₚ savedMeetings s.
Proof. unfold render. destruct (view s); [done|]. apply Array_sort_Permutation. Qed.

(** X23. Only the one key is ever written: mounting and every event leave the
    items under every other key, and what the storage permits, as they
    were. *)
Theorem other_keys_untouched (k : string) :
  k ≠ STORAGE_KEY →
  (∀ ls, items (localStorage (mount ls)) !! k = items ls !! k
         ∧ readable (localStorage (mount ls)) = readable ls
         ∧ writable (localStorage (mount ls)) = writable ls)
  ∧ (∀ e w, items (localStorage (step e w)) !! k = items (localStorage w) !! k
            ∧ readable (localStorage (step e w)) = readable (localStorage w)
            ∧ writable (localStorage (step e w)) = writable (localStorage w)).
Proof.
  intros Hk. split.
  - intros ls. unfold mount, persist_effect. simpl.
    repeat case_match; simpl; rewrite ?lookup_insert_ne; done.
  - intros e w. unfold step, persist_effect.
    repeat case_match; simpl; rewrite ?lookup_insert_ne; done.
Qed.

(** X24. After an event that sets the saved meetings the storage holds the
    text of the collection as it then is. When the write fails the
    collection keeps the change all the same, the storage keeps the old
    text, and the error says that the changes might not persist. *)
Theorem stored_after_mutation (e : event) (w : World) :
  sets_savedMeetings e (ui w) = true →
  (writable (localStorage w) = true →
   items (localStorage (step e w))
   = <[STORAGE_KEY := JSON_stringify_meetings (savedMeetings (ui (step e w)))]>
       (items (localStorage w))
   ∧ ui (step e w) = render (handler e (ui w)))
  ∧ (writable (localStorage w) = false →
     localStorage (step e w) = localStorage w
     ∧ savedMeetings (ui (step e w)) = savedMeetings (render (handler e (ui w)))
     ∧ error (ui (step e w))
       = Some "Could not save meetings. Your changes might not persist.").
Proof.
  intros Hsets. unfold step, persist_effect. rewrite Hsets. simpl.
  split; intros ->; by simpl.
Qed.

Lemma handler_keeps_savedMeetings e s :
  sets_savedMeetings e s = false → savedMeetings (handler e s) = savedMeetings s.
Proof.
  destruct e; simpl; intros Hsets; try done;
    unfold handleFileChange, handleDrop, processAudio_start, processAudio_settle,
      handleSaveMeeting, handleSaveSpeakerName, handleSaveTranscript, handleEditSection,
      handleSaveSection, handleDeleteMeeting, handleAskQuestion_start,
      handleAskQuestion_settle;
    repeat case_match; done.
Qed.

Lemma mount_stored_matches ls : writable ls = true → stored_matches (mount ls).
Proof.
  intros Hwrite. unfold stored_matches, mount, persist_effect. simpl. rewrite Hwrite.
  destruct (load_sets_meetings ls) eqn:Hsets; simpl; rewrite ?Hwrite; simpl.
  - eexists. by rewrite lookup_insert_eq.
  - exists []. rewrite lookup_insert_eq. split; [done|].
    unfold load_sets_meetings, load_effect in *.
    destruct (readable ls); [|done]. destruct (items ls !! STORAGE_KEY); [|done].
    destruct (truthy_string s); [|done].
    by destruct (JSON_parse_meetings s).
Qed.

Lemma step_stored_matches e w :
  writable (localStorage w) = true → stored_matches w → stored_matches (step e w).
Proof.
  intros Hwrite (meetings & Hstored & Hperm).
  unfold stored_matches, step, persist_effect. simpl.
  destruct (sets_savedMeetings e (ui w)) eqn:Hsets; simpl.
  - rewrite Hwrite. simpl. eexists. by rewrite lookup_insert_eq.
  - exists meetings. split; [done|]. rewrite Hperm.
    rewrite <- (handler_keeps_savedMeetings e (ui w) Hsets).
    symmetry. apply render_Permutation.
Qed.

Lemma reachable_stored_matches w :
  reachable w → writable (localStorage w) = true → stored_matches w.
Proof.
  induction 1 as [ls|w e _ IH Hen]; intros Hwrite.
  - apply mount_stored_matches. by rewrite <- writable_mount.
  - rewrite writable_step in Hwrite. by apply step_stored_matches; [|apply IH].
Qed.
Lemma readable_mount ls : readable (localStorage (mount ls)) = readable ls.
Proof. unfold mount, persist_effect. simpl. by repeat case_match. Qed.

(** X25. While the storage can be written, the text under the key is always
    the text of the saved meetings, in the order they had when they were
    last set. So when [JSON.parse] reads back what [JSON.stringify] wrote,
    mounting again on the storage of any reachable state shows the same
    meetings and leaves the items as they are. *)
Theorem reload_restores (w : World) :
  reachable w →
  writable (localStorage w) = true →
  stored_matches w
  ∧ ((∀ ms, JSON_parse_meetings (JSON_stringify_meetings ms) = Some ms) →
     (∀ ms, truthy_string (JSON_stringify_meetings ms) = true) →
     readable (localStorage w) = true →
     savedMeetings (ui (mount (localStorage w))) ≡ₚ savedMeetings (ui w)
     ∧ items (localStorage (mount (localStorage w))) = items (localStorage w)).
Proof.
  intros Hreach Hwrite.
  pose proof (reachable_stored_matches w Hreach Hwrite) as Hmatches.
  split; [done|]. intros Hparse Htruthy Hread.
  destruct Hmatches as (meetings & Hstored & Hperm).
  destruct (mount_rewrites (localStorage w) _ meetings Hread Hwrite Hstored
              (Htruthy _) (Hparse _)) as [Hitems Hsaved].
  split; [by rewrite Hsaved|]. rewrite Hitems. by apply insert_id.
Qed.
End Stored.


(** ** More runs on the reference platform *)

Section MoreRuns.
Lemma section_edit_cycle_witness :
  let s := processAudio_success standupAnalysis initialState in
  analysisResult s = Some standupAnalysis
  ∧ analysisResult
      (handleSaveSection (setTempSummary "  * Agenda agreed  "
                            (handleEditSection summarySection s)))
    = Some (mkAnalysis (transcript standupAnalysis) "* Agenda agreed"
              (actionItems standupAnalysis)).
Proof.
  intros s. split; [reflexivity|].
  destruct (section_edit_cycle s standupAnalysis "  * Agenda agreed  " eq_refl)
    as ((Hsummary & _) & _).
  exact Hsummary.
Defined.

Lemma rename_cycle_witness :
  let s := processAudio_success standupAnalysis initialState in
  let s' := handleSaveSpeakerName
              (setTempSpeakerName " Alice " (handleEditSpeaker "Speaker 1" s)) in
  "Speaker 1" ≠ ""
  ∧ trim " Alice " ≠ ""
  ∧ displayName (speakerNameMap s') "Speaker 1" = "Alice"
  ∧ displayName (speakerNameMap s') "Speaker 2" = "Speaker 2".
Proof.
  intros s s'.
  assert ("Speaker 1" ≠ "") as Hid by done.
  assert (trim " Alice " ≠ "") as Hname by (vm_compute; done).
  destruct (rename_cycle s "Speaker 1" " Alice " Hid Hname) as (Hshown & _).
  split; [exact Hid|]. split; [exact Hname|].
  split; [exact (Hshown "Speaker 1")|exact (Hshown "Speaker 2")].
Defined.

Lemma speakerColors_palette_witness :
  let speakers := ["Ann"; "Bob"; "Cy"; "Di"; "Ed"; "Flo"; "Gus"] in
  NoDup speakers
  ∧ speakerColors speakers !! "Ann" = Some "bg-sky-900/50"
  ∧ speakerColors speakers !! "Gus" = speakerColors speakers !! "Ann".
Proof.
  intros speakers.
  assert (NoDup speakers) as Hnd by (apply (bool_decide_unpack _); by vm_compute).
  destruct (speakerColors_palette speakers Hnd) as (Hcolor & _).
  destruct (Hcolor 0%nat "Ann" eq_refl) as (Hann & Hseventh).
  split; [exact Hnd|]. split; [exact Hann|]. exact (Hseventh "Gus" eq_refl).
Defined.

Lemma fileToBase64_payload_witness :
  comma_free "data:audio/mpeg;base64"
  ∧ comma_free "SUQzBAAAAAAA"
  ∧ fileToBase64_onload "data:audio/mpeg;base64,SUQzBAAAAAAA" = Some "SUQzBAAAAAAA".
Proof.
  assert (comma_free "data:audio/mpeg;base64") as Hheader
    by (apply (bool_decide_unpack _); by vm_compute).
  assert (comma_free "SUQzBAAAAAAA") as Hpayload
    by (apply (bool_decide_unpack _); by vm_compute).
  split; [exact Hheader|]. split; [exact Hpayload|].
  exact (proj1 (fileToBase64_payload _ _ Hheader Hpayload)).
Defined.

Lemma result_iff_success_witness :
  let w := referenceRun (toResultPane standupResponse) emptyStorage in
  @reachable referencePlatform w
  ∧ appState (ui w) = SUCCESS
  ∧ is_Some (analysisResult (ui w)).
Proof.
  intros w.
  assert (@reachable referencePlatform w) as Hreach
    by (apply reachable_referenceRun; by vm_compute).
  destruct (@result_iff_success referencePlatform w Hreach) as (Hiff & _).
  split; [exact Hreach|]. split; [reflexivity|]. apply Hiff. reflexivity.
Defined.

Lemma turns_are_listed_witness :
  let w := referenceRun (toResultPane standupResponse) emptyStorage in
  @reachable referencePlatform w
  ∧ NoDup (uniqueSpeakers (ui w))
  ∧ turnColor (uniqueSpeakers (ui w)) (mkTurn "Speaker 1" "Hello") ∈ colors.
Proof.
  intros w.
  assert (@reachable referencePlatform w) as Hreach
    by (apply reachable_referenceRun; by vm_compute).
  destruct (@turns_are_listed referencePlatform w Hreach) as (Hnd & _ & Hturns).
  split; [exact Hreach|]. split; [exact Hnd|].
  apply (Hturns standupAnalysis (mkTurn "Speaker 1" "Hello")); [by vm_compute|].
  apply (bool_decide_unpack _). by vm_compute.
Defined.

Lemma processAudio_starts_witness :
  let w := referenceRun [FileChange (Some standup)] emptyStorage in
  @reachable referencePlatform w
  ∧ @enabled referencePlatform (ui w) ProcessAudio
  ∧ appState (ui (@step referencePlatform ProcessAudio w)) = LOADING.
Proof.
  intros w.
  assert (@reachable referencePlatform w) as Hreach
    by (apply reachable_referenceRun; by vm_compute).
  assert (@enabled referencePlatform (ui w) ProcessAudio) as Hen
    by (apply (bool_decide_unpack _); by vm_compute).
  destruct (@processAudio_starts referencePlatform w Hreach Hen) as (_ & Hloading & _).
  split; [exact Hreach|]. split; [exact Hen|]. exact Hloading.
Defined.

Lemma analysis_failure_witness :
  let w := referenceRun [FileChange (Some standup); ProcessAudio] emptyStorage in
  let x := Responded (Resolved (Some "not json")) in
  @reachable referencePlatform w
  ∧ @enabled referencePlatform (ui w) (AnalysisSettled x)
  ∧ @analyzeMeetingAudio referencePlatform (Resolved (Some "not json")) = Throw ANALYZE_FAILED
  ∧ error (ui (@step referencePlatform (AnalysisSettled x) w))
    = Some "Failed to analyze audio. Failed to process audio with Gemini API.".
Proof.
  intros w x.
  assert (@reachable referencePlatform w) as Hreach
    by (apply reachable_referenceRun; by vm_compute).
  assert (@enabled referencePlatform (ui w) (AnalysisSettled x)) as Hen
    by (apply (bool_decide_unpack _); by vm_compute).
  assert (@analyzeMeetingAudio referencePlatform (Resolved (Some "not json"))
          = Throw ANALYZE_FAILED) as Hthrow by (by vm_compute).
  destruct (@analysis_failure referencePlatform w x Hreach Hen
              (ex_intro _ ANALYZE_FAILED Hthrow)) as (_ & _ & Herror & _).
  split; [exact Hreach|]. split; [exact Hen|]. split; [exact Hthrow|]. exact Herror.
Defined.

Lemma question_context_witness :
  let w := referenceRun [SetView qa; ToggleMeetingSelection "id-march"]
             (storageWith [january; march]) in
  @reachable referencePlatform w
  ∧ NoDup (map id (savedMeetings (ui w)))
  ∧ length (@contextBlocks referencePlatform (selectedMeetings (ui w))) = 1%nat.
Proof.
  intros w.
  assert (@reachable referencePlatform w) as Hreach
    by (apply reachable_referenceRun; by vm_compute).
  assert (NoDup (map id (savedMeetings (ui w)))) as Hnd
    by (apply (bool_decide_unpack _); by vm_compute).
  destruct (@question_context referencePlatform w Hreach) as (_ & _ & Hlength).
  split; [exact Hreach|]. split; [exact Hnd|].
  rewrite (Hlength Hnd). by vm_compute.
Defined.

Lemma context_keeps_ties_witness :
  let twin := mkMeeting "id-twin" "retro" "2024-01-01T09:00:00.000Z"
                (mkAnalysis [] "* None" "* None") in
  @validTimestamps referencePlatform [march; january; twin]
  ∧ filter (λ m, iso_getTime (timestamp m) = Some 1704099600000)
      (Array_sort (@by_timestamp referencePlatform) [march; january; twin])
    = [january; twin].
Proof.
  intros twin.
  assert (@validTimestamps referencePlatform [march; january; twin]) as Hvalid.
  { intros m Hm. repeat (apply elem_of_cons in Hm as [->|Hm]; [by eexists|]).
    by apply elem_of_nil in Hm. }
  split; [exact Hvalid|].
  exact (@context_keeps_ties referencePlatform [march; january; twin] 1704099600000 Hvalid).
Defined.

Lemma mount_nothing_stored_witness :
  readable emptyStorage = true
  ∧ writable emptyStorage = true
  ∧ items emptyStorage !! STORAGE_KEY = None
  ∧ items (localStorage (@mount referencePlatform emptyStorage)) !! STORAGE_KEY = Some "[]".
Proof.
  split; [reflexivity|]. split; [reflexivity|]. split; [reflexivity|].
  destruct (@mount_nothing_stored referencePlatform emptyStorage eq_refl eq_refl
              (or_introl eq_refl)) as (_ & _ & Hitems).
  rewrite Hitems. reflexivity.
Defined.

Lemma mount_overwrites_witness :
  let ls := mkStorage {[ STORAGE_KEY := "[{" ]} true true in
  items ls !! STORAGE_KEY = Some "[{"
  ∧ @JSON_parse_meetings referencePlatform "[{" = None
  ∧ items (localStorage (@mount referencePlatform ls)) !! STORAGE_KEY = Some "[]"
  ∧ error (ui (@mount referencePlatform ls)) = Some "Could not load saved meetings.".
Proof.
  intros ls. split; [reflexivity|]. split; [reflexivity|].
  destruct (@mount_overwrites referencePlatform ls "[{" eq_refl eq_refl eq_refl eq_refl)
    as (Hitems & _ & Herror).
  split; [by rewrite Hitems|]. by apply Herror.
Defined.

Lemma other_keys_untouched_witness :
  let ls := mkStorage {[ "theme" := "dark" ]} true true in
  "theme" ≠ STORAGE_KEY
  ∧ items (localStorage (@mount referencePlatform ls)) !! "theme" = Some "dark".
Proof.
  intros ls. assert ("theme" ≠ STORAGE_KEY) as Hk by done.
  destruct (@other_keys_untouched referencePlatform "theme" Hk) as (Hmount & _).
  split; [exact Hk|]. by rewrite (proj1 (Hmount ls)).
Defined.

Lemma stored_after_mutation_witness :
  let w := referenceRun [SetView qa] (storageWith [january; march]) in
  let e := DeleteMeeting true "id-march" in
  @sets_savedMeetings e (ui w) = true
  ∧ writable (localStorage w) = true
  ∧ items (localStorage (@step referencePlatform e w)) !! STORAGE_KEY
    = Some (@JSON_stringify_meetings referencePlatform [january]).
Proof.
  intros w e.
  destruct (@stored_after_mutation referencePlatform e w eq_refl) as (Hwritten & _).
  destruct (Hwritten eq_refl) as (Hitems & _).
  split; [reflexivity|]. split; [reflexivity|]. rewrite Hitems. by vm_compute.
Defined.

Lemma reload_restores_witness :
  let w := referenceRun [SetView qa] (storageWith [january; march]) in
  @reachable referencePlatform w
  ∧ writable (localStorage w) = true
  ∧ savedMeetings (ui w) = [march; january]
  ∧ savedMeetings (ui (@mount referencePlatform (localStorage w))) ≡ₚ [march; january].
Proof.
  intros w.
  assert (@reachable referencePlatform w) as Hreach
    by (apply reachable_referenceRun; by vm_compute).
  destruct (@reload_restores referencePlatform w Hreach eq_refl) as (_ & Hreload).
  destruct (Hreload reference_parse_stringify reference_stringify_truthy eq_refl)
    as (Hsaved & _).
  split; [exact Hreach|]. split; [reflexivity|]. split; [by vm_compute|]. exact Hsaved.
Defined.
Lemma handleSaveTranscript_past_end_witness :
  let s := handleEditTranscript 7 "lost"
             (processAudio_success standupAnalysis initialState) in
  editingTranscript s = Some (7%nat, "lost")
  ∧ analysisResult s = Some standupAnalysis
  ∧ (length (transcript standupAnalysis) ≤ 7)%nat
  ∧ analysisResult (handleSaveTranscript s) = Some standupAnalysis.
Proof.
  intros s.
  assert (length (transcript standupAnalysis) ≤ 7)%nat as Hlen by (simpl; lia).
  split; [reflexivity|]. split; [reflexivity|]. split; [exact Hlen|].
  exact (proj1 (handleSaveTranscript_past_end s 7 "lost" standupAnalysis
                  eq_refl eq_refl Hlen)).
Defined.
End MoreRuns.
